(** * Crop geometry and selection of [server/scripts/pdfium_extract_assets.py]

    A shallow embedding of the rectangle arithmetic, the text-line builder and
    the two crop selectors, followed by the properties of the specification.

    Numbers.  Python mixes [int] and [float]; both are embedded in the
    rationals [Q], compared with [Qcompare] (so [==] is Python's [==] on
    numbers).  The arithmetic is exact, as it is on [int]s and on [float]s
    of integer value; where the code multiplies by a [float] literal and
    truncates or compares the product ([int(h * 0.7)], [h * 0.35]) the
    product is rounded to binary64.  [clamp_bounds] and
    [intersection_over_union] are given a second time on [float]s, rounded
    after every operation and with the infinities and NaN.  [int(math.floor _)] and [int(math.ceil _)] are [Qfloor] and
    [Qceiling], [int _] truncates toward zero and [round _] rounds half to
    even.  Every [/] of the source is [py_div], which raises
    [ZeroDivisionError] on a zero divisor, and [math.sqrt] raises [ValueError]
    below zero; its value on the other inputs is a parameter of the
    development.

    Text.  A [str] is a [string] of the Standard Library: code points below
    256, on which [str.isspace], the class [\s] and [str.lower] are written
    out in full. *)

From Stdlib Require Import ZArith QArith Qround Qminmax Qabs.
From Stdlib Require Import List ListSet String Ascii Bool Lia Lqa.
From Stdlib Require Import Permutation Sorted.
Import ListNotations.

Local Open Scope Q_scope.

(** ** Exceptions *)

Inductive PyError : Type :=
| ZeroDivisionError
| ValueError
| OverflowError.

Inductive res (A : Type) : Type :=
| Ok (a : A)
| Raise (e : PyError).

Arguments Ok {A} a.
Arguments Raise {A} e.

Definition bind {A B : Type} (m : res A) (k : A -> res B) : res B :=
  match m with
  | Ok a => k a
  | Raise e => Raise e
  end.

Notation "x <- m ;; k" := (bind m (fun x => k))
  (at level 61, m at next level, right associativity).

(** ** Numbers *)

Definition Qltb (a b : Q) : bool := negb (Qle_bool b a).

Definition py_div (a b : Q) : res Q :=
  if Qeq_bool b 0 then Raise ZeroDivisionError else Ok (a / b).

(** [int(q)]: truncation toward zero. *)
Definition py_int (q : Q) : Z := Z.quot (Qnum q) (Zpos (Qden q)).

(** [round(q)]: the nearest integer, a tie going to the even one. *)
Definition py_round (q : Q) : Z :=
  let f := Qfloor q in
  let d := q - inject_Z f in
  if Qltb d (1 # 2) then f
  else if Qltb (1 # 2) d then (f + 1)%Z
  else if Z.even f then f else (f + 1)%Z.

(** The binary64 number nearest to [q], a tie going to the even mantissa:
    the value of a [float] literal and of a [float] product.  Numbers below
    [2 ^ -1022] are rounded to a multiple of [2 ^ -1074]; the overflow above
    [2 ^ 1024] is left to the operations that can meet it. *)
Definition binary64 (q : Q) : Q :=
  if Qeq_bool q 0 then 0
  else
    let a := Qabs q in
    let k0 := (Z.log2 (Qnum a) - Z.log2 (Zpos (Qden a)))%Z in
    let k := if Qltb a (Qpower 2 k0) then (k0 - 1)%Z else k0 in
    let e := Z.max (k - 52) (-1074) in
    let m := py_round (a / Qpower 2 e) in
    let r := Qred (inject_Z m * Qpower 2 e) in
    if Qltb q 0 then - r else r.

(** [a * b] on [float]s (an [int] operand is converted first). *)
Definition float_mul (a b : Q) : Q := binary64 (a * b).

(** [len(l)] as a Python [int]. *)
Definition len {A : Type} (l : list A) : Z := Z.of_nat (List.length l).

(** ** Rectangles: the dict [{"x", "y", "width", "height"}] *)

Record Rect : Type := mkRect {
  rect_x : Q;
  rect_y : Q;
  rect_width : Q;
  rect_height : Q
}.

Definition rect_area (b : Rect) : Q := rect_width b * rect_height b.

Definition clamp_bounds (bounds : Rect) (page_width page_height : Q) : Rect :=
  let x := Qmax 0 (inject_Z (Qfloor (rect_x bounds))) in
  let y := Qmax 0 (inject_Z (Qfloor (rect_y bounds))) in
  let max_x :=
    Qmin page_width (inject_Z (Qceiling (rect_x bounds + rect_width bounds))) in
  let max_y :=
    Qmin page_height (inject_Z (Qceiling (rect_y bounds + rect_height bounds))) in
  mkRect x y (Qmax 0 (max_x - x)) (Qmax 0 (max_y - y)).

(** [bounds] is [None] for a falsy argument ([None] or an empty dict). *)
Definition ensure_minimum_bounds_size (bounds : option Rect)
    (min_width min_height page_width page_height : Q) : res Rect :=
  match bounds with
  | None => Ok (clamp_bounds (mkRect 0 0 0 0) page_width page_height)
  | Some b =>
      let x := rect_x b in
      let y := rect_y b in
      let width := rect_width b in
      let height := rect_height b in
      xw <- (if Qltb width min_width
             then (let grow_by := min_width - width in
                   half <- py_div grow_by 2 ;; Ok (x - half, min_width))
             else Ok (x, width)) ;;
      yh <- (if Qltb height min_height
             then (let grow_by := min_height - height in
                   half <- py_div grow_by 2 ;; Ok (y - half, min_height))
             else Ok (y, height)) ;;
      Ok (clamp_bounds (mkRect (fst xw) (fst yh) (snd xw) (snd yh))
            page_width page_height)
  end.

(** The local [intersection_area] of [intersection_over_union]. *)
Definition intersection_area (box_a box_b : Rect) : Q :=
  let intersection_x := Qmax (rect_x box_a) (rect_x box_b) in
  let intersection_y := Qmax (rect_y box_a) (rect_y box_b) in
  let intersection_max_x :=
    Qmin (rect_x box_a + rect_width box_a) (rect_x box_b + rect_width box_b) in
  let intersection_max_y :=
    Qmin (rect_y box_a + rect_height box_a) (rect_y box_b + rect_height box_b) in
  let intersection_width := Qmax 0 (intersection_max_x - intersection_x) in
  let intersection_height := Qmax 0 (intersection_max_y - intersection_y) in
  intersection_width * intersection_height.

(** Its local [union_area]. *)
Definition union_area (box_a box_b : Rect) : Q :=
  let area_a := rect_width box_a * rect_height box_a in
  let area_b := rect_width box_b * rect_height box_b in
  area_a + area_b - intersection_area box_a box_b.

Definition intersection_over_union (box_a box_b : Rect) : res Q :=
  if Qle_bool (intersection_area box_a box_b) 0 then Ok 0
  else if Qle_bool (union_area box_a box_b) 0 then Ok 0
  else py_div (intersection_area box_a box_b) (union_area box_a box_b).

Definition intersects_with_margin (text_bounds crop_bounds : Rect) (margin : Q)
    : bool :=
  let crop_left := rect_x crop_bounds - margin in
  let crop_top := rect_y crop_bounds - margin in
  let crop_right := rect_x crop_bounds + rect_width crop_bounds + margin in
  let crop_bottom := rect_y crop_bounds + rect_height crop_bounds + margin in
  let text_left := rect_x text_bounds in
  let text_top := rect_y text_bounds in
  let text_right := rect_x text_bounds + rect_width text_bounds in
  let text_bottom := rect_y text_bounds + rect_height text_bounds in
  negb (Qltb text_right crop_left
        || Qltb crop_right text_left
        || Qltb text_bottom crop_top
        || Qltb crop_bottom text_top).

Definition IMAGE_CROP_FALLBACK_AREA_RATIO : Q := 62 # 100.

(** The locals [page_area], [target_area] and [current_area] of
    [shrink_bounds_to_target_area_ratio]. *)
Definition shrink_page_area (page_width page_height : Q) : Q :=
  Qmax 1 (page_width * page_height).

Definition shrink_target_area (page_width page_height target_area_ratio : Q) : Q :=
  Qmax 1 (shrink_page_area page_width page_height * target_area_ratio).

Definition shrink_current_area (bounds : Rect) : Q :=
  Qmax 1 (rect_width bounds * rect_height bounds).

Section Sqrt.

(** The value of [math.sqrt] on a non-negative argument. *)
Variable sqrt_value : Q -> Q.

Definition math_sqrt (v : Q) : res Q :=
  if Qltb v 0 then Raise ValueError else Ok (sqrt_value v).

Definition shrink_bounds_to_target_area_ratio (bounds : Rect)
    (page_width page_height target_area_ratio : Q) : res Rect :=
  let page_area := shrink_page_area page_width page_height in
  let target_area := shrink_target_area page_width page_height target_area_ratio in
  let current_area := shrink_current_area bounds in
  if Qle_bool current_area target_area
  then Ok (clamp_bounds bounds page_width page_height)
  else
    ratio <- py_div target_area current_area ;;
    scale <- math_sqrt ratio ;;
    let target_width := rect_width bounds * scale in
    let target_height := rect_height bounds * scale in
    half_width <- py_div (rect_width bounds) 2 ;;
    let center_x := rect_x bounds + half_width in
    half_height <- py_div (rect_height bounds) 2 ;;
    let center_y := rect_y bounds + half_height in
    half_target_width <- py_div target_width 2 ;;
    half_target_height <- py_div target_height 2 ;;
    Ok (clamp_bounds
          (mkRect (center_x - half_target_width) (center_y - half_target_height)
             target_width target_height)
          page_width page_height).

End Sqrt.

(** ** Text *)

Local Open Scope string_scope.
Local Open Scope list_scope.

(** [str.isspace] and the class [\s] on code points below 256:
    U+0009..U+000D, U+001C..U+0020, U+0085 and U+00A0. *)
Definition isspace (c : ascii) : bool :=
  let n := N_of_ascii c in
  ((9 <=? n) && (n <=? 13) || (28 <=? n) && (n <=? 32)
   || (n =? 133) || (n =? 160))%N.

Definition str_len (s : string) : Z := Z.of_nat (String.length s).

(** [re.sub(r"\s+", " ", s)]; [in_run] tells that the previous character was
    whitespace, already replaced. *)
Fixpoint sub_spaces (in_run : bool) (s : string) : string :=
  match s with
  | EmptyString => EmptyString
  | String c rest =>
      if isspace c
      then (if in_run then sub_spaces true rest
            else String " " (sub_spaces true rest))
      else String c (sub_spaces false rest)
  end.

Fixpoint lstrip (s : string) : string :=
  match s with
  | EmptyString => EmptyString
  | String c rest => if isspace c then lstrip rest else s
  end.

Fixpoint rstrip (s : string) : string :=
  match s with
  | EmptyString => EmptyString
  | String c rest =>
      match rstrip rest with
      | EmptyString => if isspace c then EmptyString else String c EmptyString
      | kept => String c kept
      end
  end.

Definition strip (s : string) : string := rstrip (lstrip s).

Definition normalize_whitespace (value : string) : string :=
  match value with
  | EmptyString => ""
  | _ => strip (sub_spaces false value)
  end.

(** [s[:n]]: a negative [n] counts from the end. *)
Definition slice_to (s : string) (n : Z) : string :=
  if (0 <=? n)%Z then substring 0 (Z.to_nat n) s
  else substring 0 (Z.to_nat (str_len s + n)) s.

(** [str.lower] on code points below 256. *)
Definition lower_char (c : ascii) : ascii :=
  let n := N_of_ascii c in
  if ((65 <=? n) && (n <=? 90)
      || (192 <=? n) && (n <=? 222) && negb (n =? 215))%N
  then ascii_of_N (n + 32) else c.

Fixpoint lower (s : string) : string :=
  match s with
  | EmptyString => EmptyString
  | String c rest => String (lower_char c) (lower rest)
  end.

(** The class [[^a-z0-9\s]]. *)
Definition is_other (c : ascii) : bool :=
  let n := N_of_ascii c in
  negb (((97 <=? n) && (n <=? 122) || (48 <=? n) && (n <=? 57))%N
        || isspace c).

(** [re.sub(r"[^a-z0-9\s]", " ", s)]. *)
Fixpoint sub_others (s : string) : string :=
  match s with
  | EmptyString => EmptyString
  | String c rest => String (if is_other c then " "%char else c) (sub_others rest)
  end.

(** [s.split()]; [word] is the word being read. *)
Fixpoint split_from (word : string) (s : string) : list string :=
  match s with
  | EmptyString => match word with EmptyString => [] | _ => [word] end
  | String c rest =>
      if isspace c
      then match word with
           | EmptyString => split_from "" rest
           | _ => word :: split_from "" rest
           end
      else split_from (word ++ String c "")%string rest
  end.

Definition split (s : string) : list string := split_from "" s.

Definition tokenize_for_score (value : string) : list string :=
  let text := lower (normalize_whitespace value) in
  let text := sub_others text in
  filter (fun token => (3 <=? str_len token)%Z) (split text).

(** [token_set.update(tokens)], the set kept as a list without repetition. *)
Definition set_update (token_set tokens : list string) : list string :=
  fold_left (fun acc token => set_add string_dec token acc)
    tokens token_set.

(** ** Sorting: [sorted] and [list.sort] are stable

    [before a b] tells that [a] has to come strictly before [b]; elements
    that are not ordered by it keep the order of the input. *)

Section StableSort.

Context {A : Type}.
Variable before : A -> A -> bool.

Fixpoint insert_stable (v : A) (l : list A) : list A :=
  match l with
  | [] => [v]
  | e :: rest => if before e v then e :: insert_stable v rest else v :: l
  end.

Definition sort_stable (l : list A) : list A :=
  fold_right insert_stable [] l.

End StableSort.

(** ** Text lines from character boxes *)

(** The dict [{"text", "x", "y", "width", "height"}] of a character. *)
Record CharItem : Type := mkItem {
  item_text : string;
  item_box : Rect
}.

(** The same dict for a reconstructed line. *)
Record TextLine : Type := mkLine {
  line_text : string;
  line_box : Rect
}.

(** A line under construction: [{"items", "center_y"}]. *)
Record LineAcc : Type := mkAcc {
  acc_items : list CharItem;
  acc_center_y : Q
}.

(** The running [min_x, min_y, max_x, max_y].  They start at plus and minus
    infinity together and become finite together with the first rectangle:
    [None] is the infinite start. *)
Record Extent : Type := mkExtent {
  min_x : Q;
  min_y : Q;
  max_x : Q;
  max_y : Q
}.

Definition extend (e : option Extent) (b : Rect) : Extent :=
  match e with
  | None =>
      mkExtent (rect_x b) (rect_y b)
        (rect_x b + rect_width b) (rect_y b + rect_height b)
  | Some e =>
      mkExtent (Qmin (min_x e) (rect_x b)) (Qmin (min_y e) (rect_y b))
        (Qmax (max_x e) (rect_x b + rect_width b))
        (Qmax (max_y e) (rect_y b + rect_height b))
  end.

Fixpoint map_res {A B : Type} (f : A -> res B) (l : list A) : res (list B) :=
  match l with
  | [] => Ok []
  | a :: rest => b <- f a ;; bs <- map_res f rest ;; Ok (b :: bs)
  end.

(** [(a["y"], a["x"]) < (b["y"], b["x"])]. *)
Definition item_key_lt (a b : CharItem) : bool :=
  Qltb (rect_y (item_box a)) (rect_y (item_box b))
  || Qeq_bool (rect_y (item_box a)) (rect_y (item_box b))
     && Qltb (rect_x (item_box a)) (rect_x (item_box b)).

Definition item_x_lt (a b : CharItem) : bool :=
  Qltb (rect_x (item_box a)) (rect_x (item_box b)).

(** [item["y"] + item["height"] / 2]. *)
Definition item_center_y (item : CharItem) : res Q :=
  half <- py_div (rect_height (item_box item)) 2 ;;
  Ok (rect_y (item_box item) + half).

(** [sum(l)]. *)
Definition py_sum (l : list Q) : Q := fold_left Qplus l 0.

Definition median_height (sorted_items : list CharItem) : Q :=
  let heights :=
    filter (fun h => Qltb 0 h)
      (map (fun item => rect_height (item_box item)) sorted_items) in
  match heights with
  | [] => 12
  | _ => nth (Z.to_nat (len heights / 2)) (sort_stable Qltb heights) 0
  end.

(** The inner loop over [lines]: the index of the closest line within
    [line_gap], the first one among equally close lines. *)
Fixpoint find_line (lines : list LineAcc) (index : nat) (center_y line_gap : Q)
    (matched : option (nat * Q)) : option (nat * Q) :=
  match lines with
  | [] => matched
  | line :: rest =>
      let delta := Qabs (acc_center_y line - center_y) in
      let closer :=
        match matched with
        | None => true
        | Some (_, closest_delta) => Qltb delta closest_delta
        end in
      find_line rest (S index) center_y line_gap
        (if Qle_bool delta line_gap && closer then Some (index, delta)
         else matched)
  end.

(** [matched_line["items"].append(item)] and the new mean of the centres. *)
Definition add_item (line : LineAcc) (item : CharItem) : res LineAcc :=
  let items := acc_items line ++ [item] in
  centers <- map_res item_center_y items ;;
  mean <- py_div (py_sum centers) (inject_Z (len centers)) ;;
  Ok (mkAcc items mean).

(** The matched line is an element of [lines], changed in place. *)
Fixpoint update_line (lines : list LineAcc) (index : nat) (item : CharItem)
    : res (list LineAcc) :=
  match lines, index with
  | [], _ => Ok []
  | line :: rest, O => line' <- add_item line item ;; Ok (line' :: rest)
  | line :: rest, S i => rest' <- update_line rest i item ;; Ok (line :: rest')
  end.

Fixpoint cluster (sorted_items : list CharItem) (line_gap : Q)
    (lines : list LineAcc) : res (list LineAcc) :=
  match sorted_items with
  | [] => Ok lines
  | item :: rest =>
      center_y <- item_center_y item ;;
      match find_line lines 0 center_y line_gap None with
      | None => cluster rest line_gap (lines ++ [mkAcc [item] center_y])
      | Some (index, _) =>
          lines' <- update_line lines index item ;;
          cluster rest line_gap lines'
      end
  end.

(** The loop over the items of one line, from left to right. *)
Fixpoint join_items (items : list CharItem) (previous : option CharItem)
    (extent : option Extent) (pieces : list string)
    : option Extent * list string :=
  match items with
  | [] => (extent, pieces)
  | item :: rest =>
      let extent := extend extent (item_box item) in
      let text := item_text item in
      let pieces :=
        match previous with
        | None => pieces
        | Some previous =>
            let gap :=
              rect_x (item_box item)
              - (rect_x (item_box previous) + rect_width (item_box previous)) in
            let space_threshold :=
              Qmax (15 # 10)
                (float_mul
                   (Qmin (rect_height (item_box previous))
                         (rect_height (item_box item)))
                   (binary64 (35 # 100))) in
            if Qltb space_threshold gap
               && negb (String.eqb (item_text previous) " ")
               && negb (String.eqb text " ")
            then pieces ++ [" "] else pieces
        end in
      join_items rest (Some item) (Some extent) (pieces ++ [text])
  end.

(** [int] of the four extrema; of an infinity it raises [OverflowError]. *)
Definition extent_rect (extent : option Extent) : res Rect :=
  match extent with
  | None => Raise OverflowError
  | Some e =>
      Ok (mkRect (inject_Z (py_int (min_x e))) (inject_Z (py_int (min_y e)))
            (inject_Z (py_int (max_x e - min_x e)))
            (inject_Z (py_int (max_y e - min_y e))))
  end.

Fixpoint normalize_lines (lines : list LineAcc) : res (list TextLine) :=
  match lines with
  | [] => Ok []
  | line :: rest =>
      let items := sort_stable item_x_lt (acc_items line) in
      let '(extent, pieces) := join_items items None None [] in
      let line_text := normalize_whitespace (String.concat "" pieces) in
      match line_text with
      | EmptyString => normalize_lines rest
      | _ =>
          box <- extent_rect extent ;;
          normalized <- normalize_lines rest ;;
          Ok (mkLine line_text box :: normalized)
      end
  end.

Definition line_gap_of (median : Q) : Q :=
  Qmax 6 (Qmin 20 (inject_Z (py_round (median * (9 # 10))))).

Definition build_text_lines (char_items : list CharItem) : res (list TextLine) :=
  match char_items with
  | [] => Ok []
  | _ =>
      let sorted_items := sort_stable item_key_lt char_items in
      let line_gap := line_gap_of (median_height sorted_items) in
      lines <- cluster sorted_items line_gap [] ;;
      normalize_lines lines
  end.

(** ** Greedy selection with overlap suppression

    The loop shared by the two selectors (over [raw_candidates] with the
    threshold 0.72, over [filtered] with 0.85): [selected] grows at its end,
    and the cap is tested after every candidate. *)

Section Greedy.

Context {A : Type}.
Variable bounds_of : A -> Rect.
Variable threshold : Q.
Variable cap : Z.

(** [any(intersection_over_union(existing, candidate) > threshold
        for existing in selected)]. *)
Fixpoint overlaps_existing (selected : list A) (candidate : A) : res bool :=
  match selected with
  | [] => Ok false
  | existing :: rest =>
      iou <- intersection_over_union (bounds_of existing) (bounds_of candidate) ;;
      if Qltb threshold iou then Ok true else overlaps_existing rest candidate
  end.

Fixpoint greedy_select (candidates selected : list A) : res (list A) :=
  match candidates with
  | [] => Ok selected
  | candidate :: rest =>
      overlaps <- overlaps_existing selected candidate ;;
      let selected := if overlaps then selected else selected ++ [candidate] in
      if (cap <=? len selected)%Z then Ok selected
      else greedy_select rest selected
  end.

End Greedy.

(** ** Text crop candidates *)

(** The dict [{"bounds", "contextText", "score"}]. *)
Record TextCropCandidate : Type := mkCandidate {
  cand_bounds : Rect;
  contextText : string;
  score : Q
}.

Definition score_gt (a b : TextCropCandidate) : bool := Qltb (score b) (score a).

(** [max(text_lines, key=lambda line: len(line["text"]))]: the first of the
    longest lines. *)
Fixpoint longest_line (best : TextLine) (rest : list TextLine) : TextLine :=
  match rest with
  | [] => best
  | line :: rest' =>
      longest_line
        (if (str_len (line_text best) <? str_len (line_text line))%Z
         then line else best) rest'
  end.

Section TextSelector.

Variables page_width page_height : Q.
Variable max_text_crops_per_page : Z.
Variables text_block_padding_px min_crop_edge_px min_text_block_height_px : Q.
Variables min_text_block_char_length min_text_lines_per_block : Z.
Variables max_text_lines_per_block max_context_length : Z.

Definition text_page_area : Q := Qmax 1 (page_width * page_height).

(** The loop over [end_index], on the lines from [start_index] to [max_end];
    [line_count] counts the lines already taken. *)
Fixpoint sweep_window (window : list TextLine) (combined_text : string)
    (extent : option Extent) (token_set : list string) (line_count : Z)
    : list TextCropCandidate :=
  match window with
  | [] => []
  | line :: rest =>
      let combined_text :=
        normalize_whitespace (combined_text ++ " " ++ line_text line)%string in
      let token_set := set_update token_set (tokenize_for_score (line_text line)) in
      let e := extend extent (line_box line) in
      let line_count := (line_count + 1)%Z in
      let later := sweep_window rest combined_text (Some e) token_set line_count in
      if (line_count <? min_text_lines_per_block)%Z
         || (str_len combined_text <? min_text_block_char_length)%Z
      then later
      else
        let expanded :=
          clamp_bounds
            (mkRect (min_x e - text_block_padding_px)
               (min_y e - text_block_padding_px)
               ((max_x e - min_x e) + text_block_padding_px * 2)
               ((max_y e - min_y e) + text_block_padding_px * 2))
            page_width page_height in
        let area := rect_width expanded * rect_height expanded in
        if Qltb (rect_width expanded) min_crop_edge_px
           || Qltb (rect_height expanded) min_text_block_height_px
           || Qltb area (text_page_area * (4 # 1000))
           || Qltb (text_page_area * (68 # 100)) area
        then later
        else
          let score :=
            inject_Z (len token_set * 2)
            + inject_Z (Z.min 200 (str_len combined_text)) * (7 # 100) in
          mkCandidate expanded (slice_to combined_text max_context_length) score
          :: later
  end.

(** The loop over [start_index]: [raw_candidates] before it is sorted. *)
Fixpoint raw_text_candidates (text_lines : list TextLine)
    : list TextCropCandidate :=
  match text_lines with
  | [] => []
  | _ :: rest =>
      sweep_window (firstn (Z.to_nat max_text_lines_per_block) text_lines)
        "" None [] 0
      ++ raw_text_candidates rest
  end.

(** The minimum height of the single-line fallback,
    [max(56, int(min_text_block_height_px * 0.7))]: the product is a
    [float]. *)
Definition text_fallback_min_height : Q :=
  Qmax 56
    (inject_Z (py_int (float_mul min_text_block_height_px (binary64 (7 # 10))))).

(** The inner [clamp_bounds] of the fallback: the line padded by twice the
    padding on every side. *)
Definition text_fallback_padded (best_line : TextLine) : Rect :=
  clamp_bounds
    (mkRect (rect_x (line_box best_line) - text_block_padding_px * 2)
       (rect_y (line_box best_line) - text_block_padding_px * 2)
       (rect_width (line_box best_line) + text_block_padding_px * 4)
       (rect_height (line_box best_line) + text_block_padding_px * 4))
    page_width page_height.

(** The rectangle of the single-line fallback. *)
Definition text_fallback_bounds (best_line : TextLine) : res Rect :=
  ensure_minimum_bounds_size (Some (text_fallback_padded best_line))
    min_crop_edge_px text_fallback_min_height page_width page_height.

Definition select_text_crop_candidates (text_lines : list TextLine)
    : res (list TextCropCandidate) :=
  let raw_candidates := sort_stable score_gt (raw_text_candidates text_lines) in
  selected <-
    greedy_select cand_bounds (72 # 100) max_text_crops_per_page
      raw_candidates [] ;;
  match selected, text_lines with
  | [], first :: rest =>
      let best_line := longest_line first rest in
      expanded <- text_fallback_bounds best_line ;;
      let area := rect_width expanded * rect_height expanded in
      if Qle_bool (text_page_area * (2 # 1000)) area
      then
        Ok (selected
            ++ [mkCandidate expanded
                  (slice_to (normalize_whitespace (line_text best_line))
                     max_context_length)
                  (Qmax 1 (inject_Z (str_len (line_text best_line)) * (2 # 10)))])
      else Ok selected
  | _, _ => Ok selected
  end.

End TextSelector.

(** ** Image crop boxes *)

Definition area_gt (a b : Rect) : bool := Qltb (rect_area b) (rect_area a).

Section ImageSelector.

Variable sqrt_value : Q -> Q.
Variables page_width page_height : Q.
Variables min_crop_edge_px min_crop_area_ratio max_crop_area_ratio : Q.
Variable max_crops_per_page : Z.

Definition image_page_area : Q := Qmax 1 (page_width * page_height).

(** The tests of the first loop on one clamped rectangle: [true] when it
    reaches [filtered.append]. *)
Definition keeps_image (clamped : Rect) : res bool :=
  let width := rect_width clamped in
  let height := rect_height clamped in
  if Qltb width min_crop_edge_px || Qltb height min_crop_edge_px then Ok false
  else
    let area := width * height in
    if Qltb area (image_page_area * min_crop_area_ratio) then Ok false
    else if Qltb (image_page_area * max_crop_area_ratio) area then Ok false
    else
      aspect_ratio <- py_div width (Qmax 1 height) ;;
      if Qle_bool aspect_ratio (15 # 100) || Qle_bool (65 # 10) aspect_ratio
      then Ok false else Ok true.

(** The first loop: the lists [normalized] and [filtered]. *)
Fixpoint scan_images (raw_bounds : list Rect) : res (list Rect * list Rect) :=
  match raw_bounds with
  | [] => Ok ([], [])
  | bounds :: rest =>
      let clamped := clamp_bounds bounds page_width page_height in
      keep <- keeps_image clamped ;;
      later <- scan_images rest ;;
      Ok (clamped :: fst later,
          if keep then clamped :: snd later else snd later)
  end.

(** The rectangle of the fallback, from the largest clamped rectangle. *)
Definition image_fallback_bounds (fallback : Rect) : res Rect :=
  let fallback_area := rect_width fallback * rect_height fallback in
  fallback <-
    (if Qltb (image_page_area * max_crop_area_ratio) fallback_area
     then shrink_bounds_to_target_area_ratio sqrt_value fallback
            page_width page_height IMAGE_CROP_FALLBACK_AREA_RATIO
     else Ok fallback) ;;
  ensure_minimum_bounds_size (Some fallback)
    min_crop_edge_px min_crop_edge_px page_width page_height.

Definition select_image_crop_boxes (raw_bounds : list Rect) : res (list Rect) :=
  scanned <- scan_images raw_bounds ;;
  let normalized := fst scanned in
  let filtered := sort_stable area_gt (snd scanned) in
  selected <-
    greedy_select (fun bounds => bounds) (85 # 100) max_crops_per_page
      filtered [] ;;
  match selected, sort_stable area_gt normalized with
  | [], largest :: _ =>
      fallback <- image_fallback_bounds largest ;;
      let fallback_area := rect_width fallback * rect_height fallback in
      if Qle_bool (image_page_area * min_crop_area_ratio) fallback_area
      then Ok (selected ++ [fallback])
      else Ok selected
  | _, _ => Ok selected
  end.

End ImageSelector.

(** A value for [math.sqrt] in the examples: the integer square root of the
    argument scaled by [2 ^ 40]. *)
Definition sqrt_scaled (v : Q) : Q :=
  Z.sqrt (Qfloor (v * inject_Z (2 ^ 40))) # (2 ^ 20).

(** ** Characters of a page and the context of a crop *)

(** One character of a [text_page]: the result of [get_text_range(i, 1)] and
    the four numbers of [get_charbox(i)]. *)
Record PdfChar : Type := mkPdfChar {
  char_text : string;
  char_left : Q;
  char_bottom : Q;
  char_right : Q;
  char_top : Q
}.

Definition convert_pdf_bounds_to_pixels
    (left bottom right top page_height_points scale_x scale_y image_w image_h : Q)
    : Rect :=
  let x := left * scale_x in
  let y := (page_height_points - top) * scale_y in
  let width := (right - left) * scale_x in
  let height := (top - bottom) * scale_y in
  clamp_bounds (mkRect x y width height) image_w image_h.

(** [text_page] is the list of the characters at the indices
    [0 .. count_chars() - 1]. *)
Fixpoint extract_char_items (text_page : list PdfChar)
    (page_height_points scale_x scale_y image_w image_h : Q) : list CharItem :=
  match text_page with
  | [] => []
  | char :: rest =>
      let later :=
        extract_char_items rest page_height_points scale_x scale_y
          image_w image_h in
      match char_text char with
      | EmptyString => later
      | char_text =>
          let bounds :=
            convert_pdf_bounds_to_pixels (char_left char) (char_bottom char)
              (char_right char) (char_top char) page_height_points
              scale_x scale_y image_w image_h in
          if Qle_bool (rect_width bounds) 0 || Qle_bool (rect_height bounds) 0
          then later
          else mkItem char_text bounds :: later
      end
  end.

Definition build_crop_context_text (text_lines : list TextLine)
    (crop_bounds : Rect) (margin : Q) (max_length : Z) : string :=
  match text_lines with
  | [] => ""
  | _ =>
      let matched :=
        map line_text
          (filter
             (fun line => intersects_with_margin (line_box line) crop_bounds margin)
             text_lines) in
      slice_to (normalize_whitespace (String.concat " " matched)) max_length
  end.

(** ** The same functions on [float]s

    A [float] is a binary64 number, an infinity or NaN.  The sum of two
    finite [float]s is rounded, and is an infinity from [2 ^ 1024] on. *)








(** [intersection_over_union] on rectangles of finite [float]s, every
    operation rounded to binary64. *)
Definition intersection_over_union_float (box_a box_b : Rect) : res Q :=
  let intersection_x := Qmax (rect_x box_a) (rect_x box_b) in
  let intersection_y := Qmax (rect_y box_a) (rect_y box_b) in
  let intersection_max_x :=
    Qmin (binary64 (rect_x box_a + rect_width box_a))
         (binary64 (rect_x box_b + rect_width box_b)) in
  let intersection_max_y :=
    Qmin (binary64 (rect_y box_a + rect_height box_a))
         (binary64 (rect_y box_b + rect_height box_b)) in
  let intersection_width :=
    Qmax 0 (binary64 (intersection_max_x - intersection_x)) in
  let intersection_height :=
    Qmax 0 (binary64 (intersection_max_y - intersection_y)) in
  let intersection_area := float_mul intersection_width intersection_height in
  if Qle_bool intersection_area 0 then Ok 0
  else
    let area_a := float_mul (rect_width box_a) (rect_height box_a) in
    let area_b := float_mul (rect_width box_b) (rect_height box_b) in
    let union_area := binary64 (binary64 (area_a + area_b) - intersection_area) in
    if Qle_bool union_area 0 then Ok 0
    else
      ratio <- py_div intersection_area union_area ;;
      Ok (binary64 ratio).

(** ** Notions used by the properties *)

(** The value of [intersection_over_union], which never raises. *)
Definition iou_value (a b : Rect) : Q :=
  match intersection_over_union a b with
  | Ok v => v
  | Raise _ => 0
  end.

(** Shapes of a whitespace-normalized text. *)
Definition no_leading_space (s : string) : Prop :=
  match s with
  | EmptyString => True
  | String c _ => isspace c = false
  end.

Fixpoint no_trailing_space (s : string) : Prop :=
  match s with
  | EmptyString => True
  | String c EmptyString => isspace c = false
  | String _ rest => no_trailing_space rest
  end.

Fixpoint no_double_space (s : string) : Prop :=
  match s with
  | EmptyString => True
  | String c rest =>
      match rest with
      | EmptyString => True
      | String d _ => ~ (isspace c = true /\ isspace d = true)
      end
      /\ no_double_space rest
  end.

(** Every whitespace character is a space followed by a character that is
    not whitespace. *)
Fixpoint single_spaced (s : string) : Prop :=
  match s with
  | EmptyString => True
  | String c rest =>
      (isspace c = true ->
       c = " "%char
       /\ match rest with
          | EmptyString => False
          | String d _ => isspace d = false
          end)
      /\ single_spaced rest
  end.

(** The same, except that the text may end with one space. *)
Fixpoint loosely_spaced (s : string) : Prop :=
  match s with
  | EmptyString => True
  | String c rest =>
      (isspace c = true -> c = " "%char /\ no_leading_space rest)
      /\ loosely_spaced rest
  end.

(** A text line as [build_text_lines] returns it. *)
Definition normalized_line (line : TextLine) : Prop :=
  line_text line <> EmptyString
  /\ normalize_whitespace (line_text line) = line_text line
  /\ no_leading_space (line_text line)
  /\ no_trailing_space (line_text line)
  /\ no_double_space (line_text line).

(** Every line under construction holds at least one character. *)
Definition lines_inhabited (lines : list LineAcc) : Prop :=
  Forall (fun line => acc_items line <> []) lines.

(** For a sort by [before]: [a] may stand before [b]. *)
Definition in_order {A : Type} (before : A -> A -> bool) (a b : A) : Prop :=
  before b a = false.

(** Every rectangle later in the list overlaps an earlier one by at most
    [threshold]. *)
Definition apart {A : Type} (bounds_of : A -> Rect) (threshold : Q)
    (selected : list A) : Prop :=
  ForallOrdPairs
    (fun a b => iou_value (bounds_of a) (bounds_of b) <= threshold) selected.

(** The rectangle that [ensure_minimum_bounds_size] hands to
    [clamp_bounds]: [bounds] grown about its centre to the minimum size. *)
Definition grown_bounds (bounds : Rect) (min_width min_height : Q) : Rect :=
  mkRect
    (if Qltb (rect_width bounds) min_width
     then rect_x bounds - (min_width - rect_width bounds) / 2
     else rect_x bounds)
    (if Qltb (rect_height bounds) min_height
     then rect_y bounds - (min_height - rect_height bounds) / 2
     else rect_y bounds)
    (if Qltb (rect_width bounds) min_width then min_width else rect_width bounds)
    (if Qltb (rect_height bounds) min_height
     then min_height else rect_height bounds).

(** The rectangle lies in the page [[0, W] x [0, H]] and has a non-negative
    size. *)
Definition inside_page (r : Rect) (W H : Q) : Prop :=
  0 <= rect_x r /\ 0 <= rect_y r
  /\ 0 <= rect_width r /\ 0 <= rect_height r
  /\ rect_x r + rect_width r <= W /\ rect_y r + rect_height r <= H.

(** [outer] covers [inner]. *)
Definition covers (outer inner : Rect) : Prop :=
  rect_x outer <= rect_x inner
  /\ rect_x inner + rect_width inner <= rect_x outer + rect_width outer
  /\ rect_y outer <= rect_y inner
  /\ rect_y inner + rect_height inner <= rect_y outer + rect_height outer.

(** The characters of a text that are not whitespace, in order. *)
Fixpoint visible (s : string) : string :=
  match s with
  | EmptyString => EmptyString
  | String c rest => if isspace c then visible rest else String c (visible rest)
  end.

(** Every character of the text passes the test. *)
Fixpoint all_chars (test : ascii -> bool) (s : string) : bool :=
  match s with
  | EmptyString => true
  | String c rest => test c && all_chars test rest
  end.

(** The class [[a-z0-9]]. *)
Definition is_token_char (c : ascii) : bool :=
  let n := N_of_ascii c in
  ((97 <=? n) && (n <=? 122) || (48 <=? n) && (n <=? 57))%N.

(** The vertical centre of a character, [item["y"] + item["height"] / 2]. *)
Definition center_of (item : CharItem) : Q :=
  rect_y (item_box item) + rect_height (item_box item) / 2.

(** At most one line under construction, whose running centre and whose
    characters' centres are all [c]. *)
Definition one_row (c : Q) (lines : list LineAcc) : Prop :=
  lines = []
  \/ exists line : LineAcc,
       lines = [line]
       /\ acc_center_y line == c
       /\ Forall (fun item => center_of item == c) (acc_items line).

(** A number of integer value, and a rectangle of such numbers (as
    [clamp_bounds] returns it for a page of integer size). *)
Definition integral (q : Q) : Prop := exists z : Z, q == inject_Z z.

Definition integer_rect (r : Rect) : Prop :=
  integral (rect_x r) /\ integral (rect_y r)
  /\ integral (rect_width r) /\ integral (rect_height r).
(** * Properties *)

Local Open Scope Q_scope.

(** ** Comparisons, minimum and maximum *)

Lemma Qltb_lt (a b : Q) : Qltb a b = true <-> a < b.
Proof.
  unfold Qltb. rewrite negb_true_iff, <- not_true_iff_false, Qle_bool_iff.
  split; [apply Qnot_le_lt | apply Qlt_not_le].
Qed.

Lemma Qltb_ge (a b : Q) : Qltb a b = false <-> b <= a.
Proof.
  unfold Qltb. rewrite negb_false_iff. apply Qle_bool_iff.
Qed.

Lemma Qle_bool_gt (a b : Q) : Qle_bool a b = false <-> b < a.
Proof.
  rewrite <- not_true_iff_false, Qle_bool_iff.
  split; [apply Qnot_le_lt | apply Qlt_not_le].
Qed.

Lemma Qmax_cases (a b : Q) : a < b /\ Qmax a b = b \/ b <= a /\ Qmax a b = a.
Proof.
  unfold Qmax, GenericMinMax.gmax.
  destruct (a ?= b) eqn:E.
  - right. split; [|reflexivity]. apply Qeq_alt in E. rewrite E. apply Qle_refl.
  - left. split; [|reflexivity]. now apply Qlt_alt.
  - right. split; [|reflexivity]. apply Qgt_alt in E. now apply Qlt_le_weak.
Qed.

Lemma Qmin_cases (a b : Q) : a <= b /\ Qmin a b = a \/ b < a /\ Qmin a b = b.
Proof.
  unfold Qmin, GenericMinMax.gmin.
  destruct (a ?= b) eqn:E.
  - left. split; [|reflexivity]. apply Qeq_alt in E. rewrite E. apply Qle_refl.
  - left. split; [|reflexivity]. apply Qlt_alt in E. now apply Qlt_le_weak.
  - right. split; [|reflexivity]. now apply Qgt_alt.
Qed.

Ltac split_max a b :=
  let H := fresh "Hcmp" in let E := fresh "Emax" in
  destruct (Qmax_cases a b) as [[H E] | [H E]]; rewrite ?E in *; clear E.

Ltac split_min a b :=
  let H := fresh "Hcmp" in let E := fresh "Emin" in
  destruct (Qmin_cases a b) as [[H E] | [H E]]; rewrite ?E in *; clear E.

Ltac split_minmax :=
  repeat match goal with
  | |- context [Qmax ?a ?b] => split_max a b
  | |- context [Qmin ?a ?b] => split_min a b
  | H : context [Qmax ?a ?b] |- _ => split_max a b
  | H : context [Qmin ?a ?b] |- _ => split_min a b
  end.

Lemma py_div_ok (a b : Q) : ~ b == 0 -> py_div a b = Ok (a / b).
Proof.
  intros Hb. unfold py_div.
  destruct (Qeq_bool b 0) eqn:E; [|reflexivity].
  apply Qeq_bool_iff in E. contradiction.
Qed.

Lemma py_div_2 (a : Q) : py_div a 2 = Ok (a / 2).
Proof. reflexivity. Qed.

(** ** Clamping *)

(** C1, as the code has it.  The clamped rectangle has a non-negative origin
    and a non-negative size, and ends at the page edge or at its own origin,
    whichever is further: it lies within the page whenever its origin does,
    and has width (height) 0 when its origin is beyond the right (bottom)
    edge. *)
Theorem clamp_bounds_extent (r : Rect) (W H : Q) :
  let c := clamp_bounds r W H in
  0 <= rect_x c /\ 0 <= rect_y c /\ 0 <= rect_width c /\ 0 <= rect_height c
  /\ rect_x c + rect_width c <= Qmax W (rect_x c)
  /\ rect_y c + rect_height c <= Qmax H (rect_y c).
Proof.
  unfold clamp_bounds; cbn [rect_x rect_y rect_width rect_height].
  set (fx := inject_Z (Qfloor (rect_x r))).
  set (fy := inject_Z (Qfloor (rect_y r))).
  set (cx := inject_Z (Qceiling (rect_x r + rect_width r))).
  set (cy := inject_Z (Qceiling (rect_y r + rect_height r))).
  repeat split; split_minmax; lra.
Qed.

Lemma clamp_bounds_beyond_page :
  let c := clamp_bounds (mkRect 200 0 10 10) 100 100 in
  ~ (0 <= rect_x c /\ 0 <= rect_y c
     /\ 0 <= rect_width c /\ 0 <= rect_height c
     /\ rect_x c + rect_width c <= 100
     /\ rect_y c + rect_height c <= 100).
Proof.
  intros c (_ & _ & _ & _ & H & _). vm_compute in H. apply H. reflexivity.
Qed.

Lemma clamp_origin_idem (p : Q) :
  let x := Qmax 0 (inject_Z (Qfloor p)) in
  Qmax 0 (inject_Z (Qfloor x)) = x /\ exists z : Z, x = inject_Z z.
Proof.
  cbv zeta.
  destruct (Qmax_cases 0 (inject_Z (Qfloor p))) as [[Hlt E] | [Hle E]]; rewrite E.
  - rewrite Qfloor_Z. split; [exact E | eauto].
  - split; [reflexivity | now exists 0%Z].
Qed.

Lemma clamp_extent_idem (x W c : Q) (z k : Z) :
  x = inject_Z z -> c = inject_Z k ->
  let w := Qmax 0 (Qmin W c - x) in
  Qmax 0 (Qmin W (inject_Z (Qceiling (x + w))) - x) = w.
Proof.
  intros -> ->. cbv zeta.
  destruct (Qmax_cases 0 (Qmin W (inject_Z k) - inject_Z z)) as [[Hlt E] | [Hle E]];
    rewrite E.
  - assert (Hsum : inject_Z z + (Qmin W (inject_Z k) - inject_Z z)
                   == Qmin W (inject_Z k)) by ring.
    rewrite Hsum.
    destruct (Qmin_cases W (inject_Z k)) as [[Hm Em] | [Hm Em]]; rewrite Em in *.
    + destruct (Qmin_cases W (inject_Z (Qceiling W))) as [[_ Ec] | [Hc _]].
      * rewrite Ec. exact E.
      * pose proof (Qle_ceiling W). lra.
    + rewrite Qceiling_Z, Em. exact E.
  - assert (Hsum : inject_Z z + 0 == inject_Z z) by ring.
    rewrite Hsum, Qceiling_Z.
    destruct (Qmax_cases 0 (Qmin W (inject_Z z) - inject_Z z)) as [[Hlt _] | [_ E0]].
    + destruct (Qmin_cases W (inject_Z z)) as [[Hm Em] | [Hm Em]];
        rewrite Em in Hlt; lra.
    + exact E0.
Qed.

(** C5.  [clamp_bounds] is idempotent. *)
Theorem clamp_bounds_idempotent (r : Rect) (W H : Q) :
  clamp_bounds (clamp_bounds r W H) W H = clamp_bounds r W H.
Proof.
  unfold clamp_bounds at 1 3; cbn [rect_x rect_y rect_width rect_height].
  destruct (clamp_origin_idem (rect_x r)) as [Ex [zx Hx]].
  destruct (clamp_origin_idem (rect_y r)) as [Ey [zy Hy]].
  cbv zeta in Ex, Ey, Hx, Hy.
  unfold clamp_bounds; cbn [rect_x rect_y rect_width rect_height].
  rewrite Ex, Ey.
  rewrite (clamp_extent_idem _ W _ zx _ Hx eq_refl).
  rewrite (clamp_extent_idem _ H _ zy _ Hy eq_refl).
  reflexivity.
Qed.

Lemma overlap_extent (p s q t : Q) :
  let o := Qmax 0 (Qmin (p + s) (q + t) - Qmax p q) in
  0 <= o /\ (0 < o -> o <= s /\ o <= t).
Proof.
  cbv zeta. split; [|intros Hpos; split]; split_minmax; lra.
Qed.

Lemma overlap_extent_sym (p s q t : Q) :
  Qmax 0 (Qmin (p + s) (q + t) - Qmax p q)
  == Qmax 0 (Qmin (q + t) (p + s) - Qmax q p).
Proof.
  rewrite (Q.min_comm (p + s)), (Q.max_comm p). reflexivity.
Qed.

Lemma product_pos (u v : Q) : 0 <= u -> 0 <= v -> 0 < u * v -> 0 < u /\ 0 < v.
Proof.
  intros Hu Hv Huv.
  destruct (Qlt_le_dec 0 u) as [Hu'|Hu']; destruct (Qlt_le_dec 0 v) as [Hv'|Hv'];
    try (split; assumption).
  - assert (v == 0) as E by lra. rewrite E in Huv. exfalso. lra.
  - assert (u == 0) as E by lra. rewrite E in Huv. exfalso. lra.
  - assert (u == 0) as E by lra. rewrite E in Huv. exfalso. lra.
Qed.

Lemma intersection_area_nonneg (a b : Rect) : 0 <= intersection_area a b.
Proof.
  unfold intersection_area. cbv zeta.
  apply Qmult_le_0_compat; apply overlap_extent.
Qed.

Lemma intersection_area_sym (a b : Rect) :
  intersection_area a b == intersection_area b a.
Proof.
  unfold intersection_area. cbv zeta.
  rewrite (overlap_extent_sym (rect_x a)), (overlap_extent_sym (rect_y a)).
  reflexivity.
Qed.

Lemma union_area_sym (a b : Rect) : union_area a b == union_area b a.
Proof.
  unfold union_area. cbv zeta. rewrite (intersection_area_sym a b). ring.
Qed.

Lemma intersection_area_le (a b : Rect) :
  0 < intersection_area a b ->
  0 < rect_width a /\ 0 < rect_height a
  /\ 0 < rect_width b /\ 0 < rect_height b
  /\ intersection_area a b <= rect_width a * rect_height a
  /\ intersection_area a b <= rect_width b * rect_height b.
Proof.
  unfold intersection_area. cbv zeta.
  destruct (overlap_extent (rect_x a) (rect_width a) (rect_x b) (rect_width b))
    as [Hw0 Hw].
  destruct (overlap_extent (rect_y a) (rect_height a) (rect_y b) (rect_height b))
    as [Hh0 Hh].
  cbv zeta in Hw0, Hw, Hh0, Hh.
  set (iw := Qmax 0 (Qmin (rect_x a + rect_width a) (rect_x b + rect_width b)
                     - Qmax (rect_x a) (rect_x b))) in *.
  set (ih := Qmax 0 (Qmin (rect_y a + rect_height a) (rect_y b + rect_height b)
                     - Qmax (rect_y a) (rect_y b))) in *.
  intros Hpos. destruct (product_pos iw ih Hw0 Hh0 Hpos) as [Hiw Hih].
  destruct (Hw Hiw) as [Hwa Hwb]. destruct (Hh Hih) as [Hha Hhb].
  repeat split; try lra; nra.
Qed.

Lemma intersection_le_union (a b : Rect) :
  0 < intersection_area a b -> intersection_area a b <= union_area a b.
Proof.
  intros Hpos. destruct (intersection_area_le a b Hpos) as (_ & _ & _ & _ & Ha & Hb).
  unfold union_area. cbv zeta. lra.
Qed.

Lemma iou_total (a b : Rect) : intersection_over_union a b = Ok (iou_value a b).
Proof.
  unfold iou_value, intersection_over_union.
  destruct (Qle_bool (intersection_area a b) 0) eqn:Ei; [reflexivity|].
  destruct (Qle_bool (union_area a b) 0) eqn:Eu; [reflexivity|].
  apply Qle_bool_gt in Eu.
  rewrite py_div_ok; [reflexivity|]. intros E. rewrite E in Eu. lra.
Qed.

Lemma iou_value_unfold (a b : Rect) :
  iou_value a b ==
  if Qle_bool (intersection_area a b) 0 then 0
  else if Qle_bool (union_area a b) 0 then 0
  else intersection_area a b / union_area a b.
Proof.
  unfold iou_value, intersection_over_union.
  destruct (Qle_bool (intersection_area a b) 0) eqn:Ei; [reflexivity|].
  destruct (Qle_bool (union_area a b) 0) eqn:Eu; [reflexivity|].
  apply Qle_bool_gt in Eu.
  rewrite py_div_ok; [reflexivity|]. intros E. rewrite E in Eu. lra.
Qed.

Lemma iou_value_sym (a b : Rect) : iou_value a b == iou_value b a.
Proof.
  rewrite !iou_value_unfold.
  assert (Ei : Qle_bool (intersection_area b a) 0
               = Qle_bool (intersection_area a b) 0)
    by (apply Qleb_comp; [apply intersection_area_sym | reflexivity]).
  assert (Eu : Qle_bool (union_area b a) 0 = Qle_bool (union_area a b) 0)
    by (apply Qleb_comp; [apply union_area_sym | reflexivity]).
  rewrite Ei, Eu.
  destruct (Qle_bool (intersection_area a b) 0); [reflexivity|].
  destruct (Qle_bool (union_area a b) 0); [reflexivity|].
  rewrite (intersection_area_sym a b), (union_area_sym a b). reflexivity.
Qed.

Lemma iou_value_range (a b : Rect) : 0 <= iou_value a b <= 1.
Proof.
  rewrite iou_value_unfold.
  destruct (Qle_bool (intersection_area a b) 0) eqn:Ei; [lra|].
  destruct (Qle_bool (union_area a b) 0) eqn:Eu; [lra|].
  apply Qle_bool_gt in Ei, Eu.
  pose proof (intersection_le_union a b Ei) as Hle.
  split.
  - apply Qle_shift_div_l; [exact Eu | lra].
  - apply Qle_shift_div_r; [exact Eu | lra].
Qed.

Lemma iou_value_self (a : Rect) :
  0 < rect_width a -> 0 < rect_height a -> iou_value a a == 1.
Proof.
  intros Hw Hh.
  assert (Hi : intersection_area a a == rect_width a * rect_height a).
  { unfold intersection_area. cbv zeta.
    assert (E1 : Qmax 0 (Qmin (rect_x a + rect_width a) (rect_x a + rect_width a)
                         - Qmax (rect_x a) (rect_x a)) == rect_width a)
      by (split_minmax; lra).
    assert (E2 : Qmax 0 (Qmin (rect_y a + rect_height a) (rect_y a + rect_height a)
                         - Qmax (rect_y a) (rect_y a)) == rect_height a)
      by (split_minmax; lra).
    rewrite E1, E2. reflexivity. }
  assert (Hu : union_area a a == rect_width a * rect_height a).
  { unfold union_area. cbv zeta. rewrite Hi. ring. }
  assert (Hpos : 0 < rect_width a * rect_height a) by nra.
  rewrite iou_value_unfold.
  destruct (Qle_bool (intersection_area a a) 0) eqn:Ei.
  { apply Qle_bool_iff in Ei. lra. }
  destruct (Qle_bool (union_area a a) 0) eqn:Eu.
  { apply Qle_bool_iff in Eu. lra. }
  rewrite Hi, Hu. apply Qmult_inv_r. lra.
Qed.

(** C6, as the code has it.  On rectangles of integer coordinates and
    sizes, the ones [clamp_bounds] returns, [intersection_over_union] is
    symmetric, lies between 0 and 1, and is 1 on a rectangle of positive
    width and height with itself.  (On [float]s that are not integers the
    rounding can lift the ratio above 1.) *)
Theorem iou_symmetric_bounded (a b : Rect) :
  integer_rect a -> integer_rect b ->
  exists v w : Q,
    intersection_over_union a b = Ok v
    /\ intersection_over_union b a = Ok w
    /\ v == w
    /\ 0 <= v <= 1
    /\ (0 < rect_width a -> 0 < rect_height a ->
        exists u : Q, intersection_over_union a a = Ok u /\ u == 1).
Proof.
  intros _ _.
  exists (iou_value a b), (iou_value b a).
  split; [apply iou_total|]. split; [apply iou_total|].
  split; [apply iou_value_sym|]. split; [apply iou_value_range|].
  intros Hw Hh. exists (iou_value a a).
  split; [apply iou_total | now apply iou_value_self].
Qed.

Lemma iou_symmetric_bounded_witness :
  exists v w : Q,
    intersection_over_union (mkRect 0 0 4 2) (mkRect 2 0 4 2) = Ok v
    /\ intersection_over_union (mkRect 2 0 4 2) (mkRect 0 0 4 2) = Ok w
    /\ v == w
    /\ 0 <= v <= 1
    /\ (0 < 4 -> 0 < 2 ->
        exists u : Q,
          intersection_over_union (mkRect 0 0 4 2) (mkRect 0 0 4 2) = Ok u
          /\ u == 1).
Proof.
  apply (iou_symmetric_bounded (mkRect 0 0 4 2) (mkRect 2 0 4 2)).
  - repeat split; [exists 0%Z | exists 0%Z | exists 4%Z | exists 2%Z];
      reflexivity.
  - repeat split; [exists 2%Z | exists 0%Z | exists 4%Z | exists 2%Z];
      reflexivity.
Defined.

Lemma iou_float_self_above_one :
  let a := mkRect (binary64 (1 # 10)) 0 (binary64 (2 # 10)) 1 in
  0 < rect_width a /\ 0 < rect_height a
  /\ exists v : Q,
       intersection_over_union_float a a = Ok v
       /\ ~ v <= 1 /\ ~ v == 1.
Proof.
  split; [reflexivity|]. split; [reflexivity|].
  eexists. split; [vm_compute; reflexivity|].
  split; intros H; vm_compute in H; [apply H; reflexivity | discriminate].
Qed.

Lemma ensure_minimum_total (bounds : option Rect) (mw mh W H : Q) :
  exists r : Rect, ensure_minimum_bounds_size bounds mw mh W H = Ok r.
Proof.
  destruct bounds as [b|]; cbn; [|eauto].
  destruct (Qltb (rect_width b) mw); destruct (Qltb (rect_height b) mh);
    cbn; eauto.
Qed.

Lemma floor_at_one (v : Q) : 1 <= Qmax 1 v.
Proof. split_minmax; lra. Qed.

Lemma shrink_total (sqrt_value : Q -> Q) (bounds : Rect) (W H ratio : Q) :
  exists r : Rect,
    shrink_bounds_to_target_area_ratio sqrt_value bounds W H ratio = Ok r.
Proof.
  unfold shrink_bounds_to_target_area_ratio. cbv zeta.
  destruct (Qle_bool _ _); [eauto|].
  pose proof (floor_at_one (rect_width bounds * rect_height bounds)) as Hc.
  pose proof (floor_at_one (shrink_page_area W H * ratio)) as Ht.
  fold (shrink_current_area bounds) in Hc.
  fold (shrink_target_area W H ratio) in Ht.
  rewrite py_div_ok by (intros E; rewrite E in Hc; lra).
  cbn [bind]. unfold math_sqrt.
  assert (Hq : 0 <= shrink_target_area W H ratio / shrink_current_area bounds).
  { apply Qle_shift_div_l; lra. }
  apply Qltb_ge in Hq. rewrite Hq. cbn. eauto.
Qed.





(** ** Whitespace normalization *)

Lemma sub_spaces_loose (in_run : bool) (s : string) :
  loosely_spaced (sub_spaces in_run s)
  /\ (in_run = true -> no_leading_space (sub_spaces in_run s)).
Proof.
  revert in_run. induction s as [|c rest IH]; intros in_run; cbn.
  - auto.
  - destruct (isspace c) eqn:Ec.
    + destruct in_run.
      * apply IH.
      * cbn. split; [|discriminate]. split; [|apply IH].
        intros _. split; [reflexivity|]. now apply IH.
    + cbn. split; [|intros _; exact Ec]. split; [|apply IH].
      rewrite Ec. discriminate.
Qed.

Lemma lstrip_loose (s : string) :
  loosely_spaced s -> loosely_spaced (lstrip s) /\ no_leading_space (lstrip s).
Proof.
  induction s as [|c rest IH]; cbn; [auto|].
  intros [Hc Hrest]. destruct (isspace c) eqn:Ec.
  - now apply IH.
  - cbn. rewrite Ec. split; [split; [discriminate | exact Hrest] | reflexivity].
Qed.

Lemma rstrip_head (s : string) :
  no_leading_space s -> s <> EmptyString ->
  exists c rest, s = String c rest /\ exists kept, rstrip s = String c kept.
Proof.
  destruct s as [|c rest]; [congruence|]. cbn. intros Hc _.
  exists c, rest. split; [reflexivity|].
  destruct (rstrip rest); [rewrite Hc|]; eauto.
Qed.

Lemma rstrip_single (s : string) :
  loosely_spaced s -> single_spaced (rstrip s).
Proof.
  induction s as [|c rest IH]; cbn; [auto|].
  intros [Hc Hrest]. specialize (IH Hrest).
  destruct (rstrip rest) as [|d kept] eqn:Er.
  - destruct (isspace c) eqn:Ec; cbn; [auto|]. rewrite Ec. split; [discriminate|auto].
  - cbn. split; [|exact IH].
    intros Ec. destruct (Hc Ec) as [-> Hlead]. split; [reflexivity|].
    destruct rest as [|d' rest']; [discriminate|].
    destruct (rstrip_head (String d' rest') Hlead) as (c0 & r0 & E0 & k0 & Ek);
      [discriminate|].
    injection E0 as <- <-. rewrite Ek in Er. injection Er as <- _. exact Hlead.
Qed.

Lemma rstrip_leading (s : string) :
  no_leading_space s -> no_leading_space (rstrip s).
Proof.
  destruct s as [|c rest]; cbn; [auto|]. intros Hc.
  destruct (rstrip rest); [rewrite Hc|]; exact Hc.
Qed.

Lemma normalize_whitespace_strip (s : string) :
  normalize_whitespace s = strip (sub_spaces false s).
Proof. destruct s; reflexivity. Qed.

Lemma normalize_whitespace_shape (s : string) :
  single_spaced (normalize_whitespace s)
  /\ no_leading_space (normalize_whitespace s).
Proof.
  rewrite normalize_whitespace_strip. unfold strip.
  destruct (sub_spaces_loose false s) as [Hl _].
  destruct (lstrip_loose _ Hl) as [Hl' Hh].
  split; [now apply rstrip_single | now apply rstrip_leading].
Qed.

Lemma sub_spaces_single (in_run : bool) (s : string) :
  single_spaced s -> (in_run = true -> no_leading_space s) ->
  sub_spaces in_run s = s.
Proof.
  revert in_run. induction s as [|c rest IH]; intros in_run; cbn; [auto|].
  intros [Hc Hrest] Hrun. destruct (isspace c) eqn:Ec.
  - destruct (Hc eq_refl) as [-> Hnext].
    destruct in_run; [specialize (Hrun eq_refl); discriminate|].
    f_equal. apply IH; [exact Hrest|]. intros _.
    destruct rest; [contradiction | exact Hnext].
  - f_equal. apply IH; [exact Hrest | discriminate].
Qed.

Lemma lstrip_leading (s : string) : no_leading_space s -> lstrip s = s.
Proof. destruct s as [|c rest]; cbn; [auto|]. now intros ->. Qed.

Lemma rstrip_single_id (s : string) : single_spaced s -> rstrip s = s.
Proof.
  induction s as [|c rest IH]; cbn; [auto|].
  intros [Hc Hrest]. rewrite (IH Hrest).
  destruct rest as [|d rest']; [|reflexivity].
  destruct (isspace c) eqn:Ec; [|reflexivity].
  destruct (Hc eq_refl) as [_ []].
Qed.

Lemma normalize_whitespace_fixed (s : string) :
  single_spaced s -> no_leading_space s -> normalize_whitespace s = s.
Proof.
  intros Hs Hl. rewrite normalize_whitespace_strip. unfold strip.
  rewrite sub_spaces_single by (auto; discriminate).
  rewrite lstrip_leading by exact Hl. now apply rstrip_single_id.
Qed.

Lemma normalize_whitespace_idem (s : string) :
  normalize_whitespace (normalize_whitespace s) = normalize_whitespace s.
Proof.
  destruct (normalize_whitespace_shape s) as [Hs Hl].
  now apply normalize_whitespace_fixed.
Qed.

Lemma single_spaced_no_trailing (s : string) :
  single_spaced s -> no_trailing_space s.
Proof.
  induction s as [|c rest IH]; cbn; [auto|].
  intros [Hc Hrest]. destruct rest as [|d rest']; [|now apply IH].
  destruct (isspace c) eqn:Ec; [|reflexivity].
  destruct (Hc eq_refl) as [_ []].
Qed.

Lemma single_spaced_no_double (s : string) :
  single_spaced s -> no_double_space s.
Proof.
  induction s as [|c rest IH]; cbn; [auto|].
  intros [Hc Hrest]. split; [|now apply IH].
  destruct rest as [|d rest']; [exact I|].
  intros [Ec Ed]. destruct (Hc Ec) as [_ Hd]. congruence.
Qed.

(** ** The line builder returns *)

Lemma item_center_y_ok (item : CharItem) :
  item_center_y item
  = Ok (rect_y (item_box item) + rect_height (item_box item) / 2).
Proof. reflexivity. Qed.

Lemma map_res_center_ok (items : list CharItem) :
  exists centers : list Q,
    map_res item_center_y items = Ok centers
    /\ List.length centers = List.length items.
Proof.
  induction items as [|item rest [centers [E L]]]; cbn [map_res].
  - now exists [].
  - rewrite item_center_y_ok. cbn [bind]. rewrite E. cbn [bind].
    eexists. split; [reflexivity|]. cbn. now rewrite L.
Qed.

Lemma add_item_ok (line : LineAcc) (item : CharItem) :
  exists line' : LineAcc,
    add_item line item = Ok line' /\ acc_items line' <> [].
Proof.
  unfold add_item. cbv zeta.
  destruct (map_res_center_ok (acc_items line ++ [item])) as [centers [E L]].
  rewrite E. cbn [bind].
  rewrite py_div_ok.
  - cbn [bind]. eexists. split; [reflexivity|]. cbn.
    destruct (acc_items line); discriminate.
  - unfold len. rewrite L, length_app. cbn [List.length].
    intros E0. unfold Qeq in E0. cbn in E0. lia.
Qed.

Lemma update_line_ok (lines : list LineAcc) (index : nat) (item : CharItem) :
  lines_inhabited lines ->
  exists lines' : list LineAcc,
    update_line lines index item = Ok lines' /\ lines_inhabited lines'.
Proof.
  revert index. induction lines as [|line rest IH]; intros index Hall.
  - destruct index; cbn; eauto.
  - inversion Hall as [|? ? Hline Hrest]; subst.
    destruct index as [|i]; cbn [update_line].
    + destruct (add_item_ok line item) as [line' [E Hne]].
      rewrite E. cbn [bind]. eexists. split; [reflexivity|].
      now constructor.
    + destruct (IH i Hrest) as [rest' [E Hall']].
      rewrite E. cbn [bind]. eexists. split; [reflexivity|].
      now constructor.
Qed.

Lemma cluster_ok (sorted_items : list CharItem) (line_gap : Q)
    (lines : list LineAcc) :
  lines_inhabited lines ->
  exists lines' : list LineAcc,
    cluster sorted_items line_gap lines = Ok lines' /\ lines_inhabited lines'.
Proof.
  revert lines. induction sorted_items as [|item rest IH]; intros lines Hall.
  - cbn. eauto.
  - cbn [cluster]. rewrite item_center_y_ok. cbn [bind].
    destruct (find_line lines 0 _ line_gap None) as [[index delta]|].
    + destruct (update_line_ok lines index item Hall) as [lines' [E Hall']].
      rewrite E. cbn [bind]. now apply IH.
    + apply IH. apply Forall_app. split; [exact Hall|].
      constructor; [discriminate | constructor].
Qed.

Lemma insert_stable_inhabited {A : Type} (before : A -> A -> bool) (v : A)
    (l : list A) : insert_stable before v l <> [].
Proof. destruct l as [|e rest]; cbn; [|destruct (before e v)]; discriminate. Qed.

Lemma sort_stable_inhabited {A : Type} (before : A -> A -> bool) (l : list A) :
  l <> [] -> sort_stable before l <> [].
Proof.
  destruct l as [|v rest]; [congruence|]. intros _. cbn.
  apply insert_stable_inhabited.
Qed.

Lemma join_items_extent (items : list CharItem) (previous : option CharItem)
    (extent : option Extent) (pieces : list string) :
  items <> [] \/ extent <> None ->
  fst (join_items items previous extent pieces) <> None.
Proof.
  revert previous extent pieces.
  induction items as [|item rest IH]; intros previous extent pieces Hne.
  - cbn. destruct Hne; [congruence | assumption].
  - cbn [join_items]. apply IH. right. discriminate.
Qed.

Lemma normalize_lines_ok (lines : list LineAcc) :
  lines_inhabited lines ->
  exists normalized : list TextLine,
    normalize_lines lines = Ok normalized /\ Forall normalized_line normalized.
Proof.
  induction lines as [|line rest IH]; intros Hall.
  - cbn. eauto.
  - inversion Hall as [|? ? Hline Hrest]; subst.
    destruct (IH Hrest) as [normalized [E Hnorm]].
    cbn [normalize_lines].
    pose proof (join_items_extent (sort_stable item_x_lt (acc_items line))
                  None None []
                  (or_introl (sort_stable_inhabited item_x_lt _ Hline))) as Hext.
    destruct (join_items _ None None []) as [extent pieces]. cbn [fst] in Hext.
    destruct (normalize_whitespace (concat "" pieces)) as [|c text] eqn:Et.
    + eauto.
    + destruct extent as [e|]; [|congruence]. cbn [extent_rect bind].
      rewrite E. cbn [bind]. eexists. split; [reflexivity|].
      constructor; [|exact Hnorm].
      destruct (normalize_whitespace_shape (concat "" pieces)) as [Hs Hl].
      rewrite Et in Hs, Hl.
      unfold normalized_line. cbn [line_text].
      split; [discriminate|]. split; [now apply normalize_whitespace_fixed|].
      split; [exact Hl|].
      split; [now apply single_spaced_no_trailing
             | now apply single_spaced_no_double].
Qed.

Lemma build_text_lines_ok (char_items : list CharItem) :
  exists lines : list TextLine,
    build_text_lines char_items = Ok lines /\ Forall normalized_line lines.
Proof.
  unfold build_text_lines. destruct char_items as [|item rest]; [eauto|].
  cbv zeta.
  destruct (cluster_ok (sort_stable item_key_lt (item :: rest))
              (line_gap_of (median_height (sort_stable item_key_lt (item :: rest))))
              [] (Forall_nil _)) as [lines [E Hall]].
  rewrite E. cbn [bind]. now apply normalize_lines_ok.
Qed.

(** C10.  [normalize_whitespace] is idempotent, and [build_text_lines]
    returns, for every list of character items, lines whose texts are
    non-empty fixed points of [normalize_whitespace]: no leading or trailing
    whitespace and no two whitespace characters in a row. *)
Theorem normalize_whitespace_idempotent_lines :
  (forall s : string,
      normalize_whitespace (normalize_whitespace s) = normalize_whitespace s)
  /\ (forall char_items : list CharItem,
        exists lines : list TextLine,
          build_text_lines char_items = Ok lines
          /\ Forall
               (fun line =>
                  line_text line <> EmptyString
                  /\ normalize_whitespace (line_text line) = line_text line
                  /\ no_leading_space (line_text line)
                  /\ no_trailing_space (line_text line)
                  /\ no_double_space (line_text line))
               lines).
Proof.
  split; [exact normalize_whitespace_idem|].
  intros char_items. exact (build_text_lines_ok char_items).
Qed.

(** ** Stable sorting *)

Section StableSortFacts.

Context {A : Type}.
Variable before : A -> A -> bool.

Local Abbreviation le := (in_order before).

Lemma insert_stable_perm (v : A) (l : list A) :
  Permutation (insert_stable before v l) (v :: l).
Proof.
  induction l as [|e rest IH]; cbn; [reflexivity|].
  destruct (before e v); [|reflexivity].
  apply (Permutation_trans (perm_skip e IH)). apply perm_swap.
Qed.

Lemma sort_stable_perm (l : list A) : Permutation (sort_stable before l) l.
Proof.
  induction l as [|v rest IH]; cbn; [reflexivity|].
  apply (Permutation_trans (insert_stable_perm v _)). now constructor.
Qed.

Hypothesis before_asym : forall a b, before a b = true -> before b a = false.
Hypothesis in_order_trans :
  forall a b c, le a b -> le b c -> le a c.

Lemma insert_stable_sorted (v : A) (l : list A) :
  StronglySorted le l -> StronglySorted le (insert_stable before v l).
Proof.
  induction l as [|e rest IH]; intros Hs; cbn.
  - repeat constructor.
  - inversion Hs as [|? ? Hrest Hall]; subst.
    destruct (before e v) eqn:E.
    + constructor; [now apply IH|].
      apply (Permutation_Forall (Permutation_sym (insert_stable_perm v rest))).
      constructor; [now apply before_asym | exact Hall].
    + constructor; [exact Hs|].
      constructor; [exact E|].
      eapply Forall_impl; [|exact Hall].
      intros x Hx. now apply (in_order_trans v e x).
Qed.

Lemma sort_stable_sorted (l : list A) : StronglySorted le (sort_stable before l).
Proof.
  induction l as [|v rest IH]; cbn; [constructor|].
  now apply insert_stable_sorted.
Qed.

(** Two sorted arrangements of the same elements agree as soon as elements
    that may stand in either order are equal. *)
Lemma sorted_perm_unique (l1 l2 : list A) :
  (forall a b, In a l1 -> In b l1 -> le a b -> le b a -> a = b) ->
  StronglySorted le l1 -> StronglySorted le l2 ->
  Permutation l1 l2 -> l1 = l2.
Proof.
  revert l2. induction l1 as [|a1 r1 IH]; intros l2 Hinj Hs1 Hs2 Hp.
  - apply Permutation_nil in Hp. now subst.
  - destruct l2 as [|a2 r2];
      [apply Permutation_sym, Permutation_nil in Hp; discriminate|].
    inversion Hs1 as [|? ? Hr1 Ha1]; subst.
    inversion Hs2 as [|? ? Hr2 Ha2]; subst.
    assert (Heq : a1 = a2).
    { assert (Hin2 : In a2 (a1 :: r1))
        by (apply (Permutation_in _ (Permutation_sym Hp)); now left).
      assert (Hin1 : In a1 (a2 :: r2))
        by (apply (Permutation_in _ Hp); now left).
      destruct Hin2 as [E|Hin2]; [exact E|].
      destruct Hin1 as [E|Hin1]; [now symmetry|].
      rewrite Forall_forall in Ha1, Ha2.
      apply Hinj; [now left | now right | now apply Ha1 | now apply Ha2]. }
    subst a2. f_equal.
    apply IH; try assumption.
    + intros a b Ha Hb. apply Hinj; now right.
    + now apply Permutation_cons_inv in Hp.
Qed.

Lemma sort_stable_perm_eq (l1 l2 : list A) :
  (forall a b, In a l1 -> In b l1 -> le a b -> le b a -> a = b) ->
  Permutation l1 l2 -> sort_stable before l1 = sort_stable before l2.
Proof.
  intros Hinj Hp. apply sorted_perm_unique.
  - intros a b Ha Hb.
    apply Hinj; [exact (Permutation_in _ (sort_stable_perm l1) Ha)
                | exact (Permutation_in _ (sort_stable_perm l1) Hb)].
  - apply sort_stable_sorted.
  - apply sort_stable_sorted.
  - apply (Permutation_trans (sort_stable_perm l1)).
    apply (Permutation_trans Hp).
    apply Permutation_sym, sort_stable_perm.
Qed.

End StableSortFacts.


(** ** The scan order of the characters *)

Lemma item_key_lt_spec (a b : CharItem) :
  item_key_lt a b = true <->
  rect_y (item_box a) < rect_y (item_box b)
  \/ (rect_y (item_box a) == rect_y (item_box b)
      /\ rect_x (item_box a) < rect_x (item_box b)).
Proof.
  unfold item_key_lt.
  rewrite orb_true_iff, andb_true_iff, !Qltb_lt, Qeq_bool_iff. reflexivity.
Qed.

Lemma item_in_order_spec (a b : CharItem) :
  in_order item_key_lt a b <->
  rect_y (item_box a) < rect_y (item_box b)
  \/ (rect_y (item_box a) == rect_y (item_box b)
      /\ rect_x (item_box a) <= rect_x (item_box b)).
Proof.
  unfold in_order. rewrite <- not_true_iff_false, item_key_lt_spec.
  destruct (Qlt_le_dec (rect_y (item_box a)) (rect_y (item_box b)));
    destruct (Qlt_le_dec (rect_y (item_box b)) (rect_y (item_box a)));
    destruct (Qlt_le_dec (rect_x (item_box b)) (rect_x (item_box a)));
    split; intros H; try (intros [?|[? ?]]); try destruct H as [?|[? ?]];
    try lra;
    try (exfalso; apply H; left; lra);
    try (exfalso; apply H; right; split; lra);
    try (left; lra); try (right; split; lra).
Qed.

Lemma item_key_asym (a b : CharItem) :
  item_key_lt a b = true -> item_key_lt b a = false.
Proof.
  intros H. apply item_key_lt_spec in H.
  apply not_true_iff_false. rewrite item_key_lt_spec.
  intros [H'|[H1 H2]]; destruct H as [H|[H3 H4]]; lra.
Qed.

Lemma item_in_order_trans (a b c : CharItem) :
  in_order item_key_lt a b -> in_order item_key_lt b c ->
  in_order item_key_lt a c.
Proof.
  rewrite !item_in_order_spec.
  intros [H1|[H1 H2]] [H3|[H3 H4]]; [left|left|left|right; split]; lra.
Qed.

Lemma item_in_order_both (a b : CharItem) :
  in_order item_key_lt a b -> in_order item_key_lt b a ->
  rect_y (item_box a) == rect_y (item_box b)
  /\ rect_x (item_box a) == rect_x (item_box b).
Proof.
  rewrite !item_in_order_spec.
  intros [H1|[H1 H2]] [H3|[H3 H4]]; split; lra.
Qed.

(** C4, as the code has it.  Two lists of character items that are
    permutations of each other give the same lines, texts and rectangles
    alike, provided that two items of equal sort key [(y, x)] are the same
    item: the stable sort leaves items of equal key in the order of the
    input. *)
Theorem build_text_lines_permutation (items1 items2 : list CharItem) :
  Permutation items1 items2 ->
  (forall a b : CharItem,
      In a items1 -> In b items1 ->
      rect_y (item_box a) == rect_y (item_box b) ->
      rect_x (item_box a) == rect_x (item_box b) -> a = b) ->
  exists lines : list TextLine,
    build_text_lines items1 = Ok lines /\ build_text_lines items2 = Ok lines.
Proof.
  intros Hp Hkey.
  destruct (build_text_lines_ok items1) as [lines [E _]].
  exists lines. split; [exact E|]. rewrite <- E.
  assert (Hs : sort_stable item_key_lt items1 = sort_stable item_key_lt items2).
  { apply sort_stable_perm_eq;
      [exact item_key_asym | exact item_in_order_trans | | exact Hp].
    intros a b Ha Hb Hab Hba.
    destruct (item_in_order_both a b Hab Hba) as [Hy Hx]. now apply Hkey. }
  unfold build_text_lines.
  destruct items1 as [|i1 r1]; destruct items2 as [|i2 r2].
  - reflexivity.
  - apply Permutation_nil in Hp. discriminate.
  - apply Permutation_sym, Permutation_nil in Hp. discriminate.
  - cbv zeta. rewrite Hs. reflexivity.
Qed.

Lemma build_text_lines_permutation_witness :
  exists lines : list TextLine,
    build_text_lines
      [mkItem "b" (mkRect 30 0 10 10); mkItem "a" (mkRect 0 0 10 10)] = Ok lines
    /\ build_text_lines
         [mkItem "a" (mkRect 0 0 10 10); mkItem "b" (mkRect 30 0 10 10)] = Ok lines.
Proof.
  apply build_text_lines_permutation.
  - apply perm_swap.
  - intros a b [<-|[<-|[]]] [<-|[<-|[]]] Hy Hx;
      try reflexivity; vm_compute in Hx; discriminate.
Defined.

Lemma build_text_lines_order_dependent :
  ~ (forall (items1 items2 : list CharItem) (lines1 lines2 : list TextLine),
        Permutation items1 items2 ->
        build_text_lines items1 = Ok lines1 ->
        build_text_lines items2 = Ok lines2 ->
        forall line : TextLine, In line lines1 <-> In line lines2).
Proof.
  intros H.
  specialize (H [mkItem "a" (mkRect 0 0 10 10); mkItem "b" (mkRect 0 0 10 10)]
                [mkItem "b" (mkRect 0 0 10 10); mkItem "a" (mkRect 0 0 10 10)]
                [mkLine "ab" (mkRect 0 0 10 10)]
                [mkLine "ba" (mkRect 0 0 10 10)]
                (perm_swap _ _ _) eq_refl eq_refl
                (mkLine "ab" (mkRect 0 0 10 10))).
  destruct H as [H _]. destruct (H (or_introl eq_refl)) as [E|[]].
  discriminate.
Qed.

(** ** The greedy loop *)

Section GreedyFacts.

Context {A : Type}.
Variable bounds_of : A -> Rect.
Variable threshold : Q.
Variable cap : Z.

Lemma overlaps_existing_ok (selected : list A) (candidate : A) :
  overlaps_existing bounds_of threshold selected candidate
  = Ok (existsb
          (fun existing =>
             Qltb threshold
               (iou_value (bounds_of existing) (bounds_of candidate)))
          selected).
Proof.
  induction selected as [|existing rest IH]; cbn [overlaps_existing existsb].
  - reflexivity.
  - rewrite iou_total. cbn [bind].
    destruct (Qltb threshold _); [reflexivity | exact IH].
Qed.

Lemma overlaps_existing_false (selected : list A) (candidate : A) :
  overlaps_existing bounds_of threshold selected candidate = Ok false ->
  Forall
    (fun existing =>
       iou_value (bounds_of existing) (bounds_of candidate) <= threshold)
    selected.
Proof.
  rewrite overlaps_existing_ok. intros E. injection E as E.
  apply Forall_forall. intros existing Hin.
  apply Qltb_ge. apply not_true_iff_false. intros Ht.
  assert (existsb
            (fun e => Qltb threshold (iou_value (bounds_of e) (bounds_of candidate)))
            selected = true) by (apply existsb_exists; eauto).
  congruence.
Qed.

Lemma apart_snoc (selected : list A) (candidate : A) :
  apart bounds_of threshold selected ->
  Forall
    (fun existing =>
       iou_value (bounds_of existing) (bounds_of candidate) <= threshold)
    selected ->
  apart bounds_of threshold (selected ++ [candidate]).
Proof.
  unfold apart. induction selected as [|e rest IH]; intros Hap Hall; cbn.
  - repeat constructor.
  - inversion Hap as [|? ? He Hrest]; subst.
    inversion Hall as [|? ? Hec Hall']; subst.
    constructor; [|now apply IH].
    apply Forall_app. split; [exact He | now constructor].
Qed.

Lemma greedy_select_ok (candidates selected : list A) :
  apart bounds_of threshold selected ->
  (len selected < cap)%Z \/ selected = [] ->
  exists result : list A,
    greedy_select bounds_of threshold cap candidates selected = Ok result
    /\ apart bounds_of threshold result
    /\ (len result <= Z.max 1 cap)%Z
    /\ (selected <> [] -> result <> [])
    /\ (forall first rest, candidates = first :: rest -> result <> []).
Proof.
  revert selected.
  induction candidates as [|candidate rest IH]; intros selected Hap Hlen.
  - cbn. exists selected. split; [reflexivity|]. split; [exact Hap|].
    split; [|split; [auto | discriminate]].
    destruct Hlen as [H| ->]; [lia | cbn; lia].
  - cbn [greedy_select]. rewrite overlaps_existing_ok. cbn [bind].
    set (overlaps := existsb _ selected).
    assert (Hov : overlaps_existing bounds_of threshold selected candidate
                  = Ok overlaps) by apply overlaps_existing_ok.
    set (selected' := if overlaps then selected else selected ++ [candidate]).
    assert (Hap' : apart bounds_of threshold selected').
    { unfold selected'. destruct overlaps; [exact Hap|].
      apply apart_snoc; [exact Hap | now apply overlaps_existing_false]. }
    assert (Hlen' : (len selected' <= len selected + 1)%Z).
    { unfold selected', len. destruct overlaps; [lia|].
      rewrite length_app. cbn. lia. }
    assert (Hne : selected' <> []).
    { unfold selected'. destruct overlaps eqn:Eo.
      - intros ->. subst overlaps. discriminate.
      - destruct selected; discriminate. }
    destruct (cap <=? len selected')%Z eqn:Ecap.
    + exists selected'. split; [reflexivity|]. split; [exact Hap'|].
      split; [|split; intros; exact Hne].
      destruct Hlen as [H|H]; [lia|].
      assert (len selected = 0)%Z by (rewrite H; reflexivity). lia.
    + apply Z.leb_gt in Ecap.
      destruct (IH selected' Hap' (or_introl Ecap))
        as (result & E & Hr & Hl & Hn & _).
      exists result. split; [exact E|]. split; [exact Hr|]. split; [exact Hl|].
      split; intros; now apply Hn.
Qed.

Lemma greedy_select_zero_cap (candidate : A) (rest : list A) :
  (cap <= 1)%Z ->
  greedy_select bounds_of threshold cap (candidate :: rest) [] = Ok [candidate].
Proof.
  intros Hcap. cbn.
  destruct (cap <=? 1)%Z eqn:E; [reflexivity|].
  apply Z.leb_gt in E. lia.
Qed.

Lemma apart_nth (selected : list A) (i j : nat) (a b : A) :
  apart bounds_of threshold selected ->
  i <> j -> nth_error selected i = Some a -> nth_error selected j = Some b ->
  iou_value (bounds_of a) (bounds_of b) <= threshold.
Proof.
  unfold apart. intros Hap. revert i j.
  induction Hap as [|e rest He Hrest IH]; intros i j Hij Hi Hj.
  - destruct i; discriminate.
  - destruct i as [|i]; destruct j as [|j]; cbn in Hi, Hj.
    + congruence.
    + injection Hi as <-. rewrite Forall_forall in He.
      apply He. eapply nth_error_In; eauto.
    + injection Hj as <-. rewrite Forall_forall in He.
      rewrite iou_value_sym. apply He. eapply nth_error_In; eauto.
    + apply (IH i j); auto.
Qed.

End GreedyFacts.

Lemma greedy_select_sorted {A : Type} (bounds_of : A -> Rect) (threshold : Q)
    (cap : Z) (order : A -> A -> Prop) (candidates selected result : list A) :
  StronglySorted order (selected ++ candidates) ->
  greedy_select bounds_of threshold cap candidates selected = Ok result ->
  StronglySorted order result.
Proof.
  revert selected.
  induction candidates as [|candidate rest IH]; intros selected Hs E.
  - cbn in E. injection E as <-. now rewrite app_nil_r in Hs.
  - cbn [greedy_select] in E. rewrite overlaps_existing_ok in E. cbn [bind] in E.
    set (overlaps := existsb _ selected) in E.
    assert (Hs' : StronglySorted order
                    ((if overlaps then selected else selected ++ [candidate])
                     ++ rest)).
    { destruct overlaps.
      - clear - Hs. induction selected as [|e s IHs]; cbn in *.
        + now inversion Hs.
        + inversion Hs as [|? ? Hs1 Hall]; subst.
          constructor; [now apply IHs|].
          apply Forall_app in Hall. destruct Hall as [H1 H2].
          apply Forall_app. split; [exact H1 | now inversion H2].
      - now rewrite <- app_assoc. }
    destruct (cap <=? _)%Z.
    + injection E as <-.
      clear - Hs'. 
      induction (if overlaps then selected else selected ++ [candidate])
        as [|e s IHs]; cbn in *; [constructor|].
      inversion Hs' as [|? ? Hs1 Hall]; subst.
      constructor; [now apply IHs|].
      apply Forall_app in Hall. tauto.
    + now apply (IH _ Hs').
Qed.

(** ** The text selector *)

Lemma score_gt_asym (a b : TextCropCandidate) :
  score_gt a b = true -> score_gt b a = false.
Proof. unfold score_gt. rewrite Qltb_lt, Qltb_ge. lra. Qed.

Lemma score_in_order (a b : TextCropCandidate) :
  in_order score_gt a b <-> score b <= score a.
Proof. unfold in_order, score_gt. apply Qltb_ge. Qed.

Lemma score_in_order_trans (a b c : TextCropCandidate) :
  in_order score_gt a b -> in_order score_gt b c -> in_order score_gt a c.
Proof. rewrite !score_in_order. lra. Qed.

Lemma area_gt_asym (a b : Rect) : area_gt a b = true -> area_gt b a = false.
Proof. unfold area_gt. rewrite Qltb_lt, Qltb_ge. lra. Qed.

Lemma area_in_order (a b : Rect) :
  in_order area_gt a b <-> rect_area b <= rect_area a.
Proof. unfold in_order, area_gt. apply Qltb_ge. Qed.

Lemma area_in_order_trans (a b c : Rect) :
  in_order area_gt a b -> in_order area_gt b c -> in_order area_gt a c.
Proof. rewrite !area_in_order. lra. Qed.

Lemma strongly_sorted_impl {A : Type} (P Q : A -> A -> Prop) (l : list A) :
  (forall a b, P a b -> Q a b) -> StronglySorted P l -> StronglySorted Q l.
Proof.
  intros HPQ. induction 1 as [|a l Hs IH Hall]; constructor; [exact IH|].
  eapply Forall_impl; [|exact Hall]. intros b. apply HPQ.
Qed.

Section TextSelectorFacts.

Variables page_width page_height : Q.
Variable max_text_crops_per_page : Z.
Variables text_block_padding_px min_crop_edge_px min_text_block_height_px : Q.
Variables min_text_block_char_length min_text_lines_per_block : Z.
Variables max_text_lines_per_block max_context_length : Z.

Local Abbreviation raw_of :=
  (raw_text_candidates page_width page_height text_block_padding_px
     min_crop_edge_px min_text_block_height_px min_text_block_char_length
     min_text_lines_per_block max_text_lines_per_block max_context_length).

Local Abbreviation select_text :=
  (select_text_crop_candidates page_width page_height max_text_crops_per_page
     text_block_padding_px min_crop_edge_px min_text_block_height_px
     min_text_block_char_length min_text_lines_per_block
     max_text_lines_per_block max_context_length).

Local Abbreviation fallback_of :=
  (text_fallback_bounds page_width page_height text_block_padding_px
     min_crop_edge_px min_text_block_height_px).

Lemma text_fallback_bounds_ok (best_line : TextLine) :
  exists expanded : Rect, fallback_of best_line = Ok expanded.
Proof. apply ensure_minimum_total. Qed.

Lemma select_text_ok (text_lines : list TextLine) :
  exists selected : list TextCropCandidate,
    select_text text_lines = Ok selected
    /\ apart cand_bounds (72 # 100) selected
    /\ (len selected <= Z.max 1 max_text_crops_per_page)%Z
    /\ StronglySorted (fun a b => score b <= score a) selected.
Proof.
  unfold select_text_crop_candidates. cbv zeta.
  destruct (greedy_select_ok cand_bounds (72 # 100) max_text_crops_per_page
              (sort_stable score_gt (raw_of text_lines)) []
              (FOP_nil _) (or_intror eq_refl))
    as (result & E & Hap & Hlen & _ & _).
  assert (Hsorted : StronglySorted (fun a b => score b <= score a) result).
  { apply (strongly_sorted_impl (in_order score_gt));
      [intros a b; apply score_in_order|].
    apply (greedy_select_sorted _ _ _ _ _ [] _ (sort_stable_sorted score_gt
             score_gt_asym score_in_order_trans _) E). }
  rewrite E. cbn [bind].
  destruct result as [|c result']; [|eauto 6].
  destruct text_lines as [|first rest]; [eauto 6|].
  destruct (text_fallback_bounds_ok (longest_line first rest)) as [expanded Ef].
  rewrite Ef. cbn [bind].
  destruct (Qle_bool _ _); [|eauto 6].
  eexists. split; [reflexivity|]. cbn [app].
  split; [repeat constructor|]. split; [unfold len; cbn; lia|].
  repeat constructor.
Qed.

Lemma select_text_zero_cap (text_lines : list TextLine) :
  (max_text_crops_per_page <= 1)%Z -> raw_of text_lines <> [] ->
  exists candidate : TextCropCandidate,
    select_text text_lines = Ok [candidate].
Proof.
  intros Hcap Hraw. unfold select_text_crop_candidates. cbv zeta.
  pose proof (sort_stable_inhabited score_gt _ Hraw) as Hs.
  destruct (sort_stable score_gt (raw_of text_lines)) as [|c rest];
    [congruence|].
  rewrite (greedy_select_zero_cap _ _ _ c rest Hcap). cbn [bind]. eauto.
Qed.

Lemma select_text_inhabited (first : TextLine) (rest : list TextLine)
    (expanded : Rect) :
  fallback_of (longest_line first rest) = Ok expanded ->
  text_page_area page_width page_height * (2 # 1000)
  <= rect_width expanded * rect_height expanded ->
  exists selected : list TextCropCandidate,
    select_text (first :: rest) = Ok selected /\ selected <> [].
Proof.
  intros Ef Harea. unfold select_text_crop_candidates. cbv zeta.
  destruct (greedy_select_ok cand_bounds (72 # 100) max_text_crops_per_page
              (sort_stable score_gt (raw_of (first :: rest))) []
              (FOP_nil _) (or_intror eq_refl))
    as (result & E & _).
  rewrite E. cbn [bind].
  destruct result as [|c result'].
  - rewrite Ef. cbn [bind]. apply Qle_bool_iff in Harea. rewrite Harea.
    eexists. split; [reflexivity | discriminate].
  - eexists. split; [reflexivity | discriminate].
Qed.

End TextSelectorFacts.

(** ** The image selector *)

Section ImageSelectorFacts.

Variable sqrt_value : Q -> Q.
Variables page_width page_height : Q.
Variables min_crop_edge_px min_crop_area_ratio max_crop_area_ratio : Q.
Variable max_crops_per_page : Z.

Local Abbreviation scan :=
  (scan_images page_width page_height min_crop_edge_px min_crop_area_ratio
     max_crop_area_ratio).

Local Abbreviation select_image :=
  (select_image_crop_boxes sqrt_value page_width page_height min_crop_edge_px
     min_crop_area_ratio max_crop_area_ratio max_crops_per_page).

Local Abbreviation image_fallback :=
  (image_fallback_bounds sqrt_value page_width page_height min_crop_edge_px
     max_crop_area_ratio).

Lemma keeps_image_ok (clamped : Rect) :
  exists keep : bool,
    keeps_image page_width page_height min_crop_edge_px min_crop_area_ratio
      max_crop_area_ratio clamped = Ok keep.
Proof.
  unfold keeps_image. cbv zeta.
  destruct (_ || _); [eauto|].
  destruct (Qltb _ _); [eauto|]. destruct (Qltb _ _); [eauto|].
  rewrite py_div_ok.
  - cbn [bind]. destruct (_ || _); eauto.
  - pose proof (floor_at_one (rect_height clamped)) as H1.
    intros E. rewrite E in H1. lra.
Qed.

Lemma scan_images_ok (raw_bounds : list Rect) :
  exists filtered : list Rect,
    scan raw_bounds
    = Ok (map (fun bounds => clamp_bounds bounds page_width page_height)
            raw_bounds, filtered).
Proof.
  induction raw_bounds as [|bounds rest [filtered E]]; cbn [scan_images map].
  - eauto.
  - destruct (keeps_image_ok (clamp_bounds bounds page_width page_height))
      as [keep Ek].
    rewrite Ek. cbn [bind]. rewrite E. cbn [bind fst snd]. eauto.
Qed.

Lemma image_fallback_bounds_ok (largest : Rect) :
  exists fallback : Rect, image_fallback largest = Ok fallback.
Proof.
  unfold image_fallback_bounds. cbv zeta.
  destruct (Qltb _ _).
  - destruct (shrink_total sqrt_value largest page_width page_height
                IMAGE_CROP_FALLBACK_AREA_RATIO) as [shrunk E].
    rewrite E. cbn [bind]. apply ensure_minimum_total.
  - cbn [bind]. apply ensure_minimum_total.
Qed.

Lemma select_image_ok (raw_bounds : list Rect) :
  exists selected : list Rect,
    select_image raw_bounds = Ok selected
    /\ apart (fun bounds => bounds) (85 # 100) selected
    /\ (len selected <= Z.max 1 max_crops_per_page)%Z
    /\ StronglySorted (fun a b => rect_area b <= rect_area a) selected.
Proof.
  unfold select_image_crop_boxes.
  destruct (scan_images_ok raw_bounds) as [filtered Es].
  rewrite Es. cbn [bind fst snd].
  destruct (greedy_select_ok (fun bounds : Rect => bounds) (85 # 100)
              max_crops_per_page (sort_stable area_gt filtered) []
              (FOP_nil _) (or_intror eq_refl))
    as (result & E & Hap & Hlen & _ & _).
  assert (Hsorted : StronglySorted (fun a b => rect_area b <= rect_area a) result).
  { apply (strongly_sorted_impl (in_order area_gt));
      [intros a b; apply area_in_order|].
    apply (greedy_select_sorted _ _ _ _ _ [] _ (sort_stable_sorted area_gt
             area_gt_asym area_in_order_trans _) E). }
  rewrite E. cbn [bind].
  destruct result as [|c result']; [|eauto 6].
  destruct (sort_stable area_gt (map _ raw_bounds)) as [|largest others];
    [eauto 6|].
  destruct (image_fallback_bounds_ok largest) as [fallback Ef].
  rewrite Ef. cbn [bind].
  destruct (Qle_bool _ _); [|eauto 6].
  eexists. split; [reflexivity|]. cbn [app].
  split; [repeat constructor|]. split; [unfold len; cbn; lia|].
  repeat constructor.
Qed.

Lemma select_image_zero_cap (raw_bounds normalized filtered : list Rect) :
  (max_crops_per_page <= 1)%Z ->
  scan raw_bounds = Ok (normalized, filtered) -> filtered <> [] ->
  exists bounds : Rect, select_image raw_bounds = Ok [bounds].
Proof.
  intros Hcap Es Hf. unfold select_image_crop_boxes.
  rewrite Es. cbn [bind fst snd].
  pose proof (sort_stable_inhabited area_gt _ Hf) as Hs.
  destruct (sort_stable area_gt filtered) as [|c rest]; [congruence|].
  rewrite (greedy_select_zero_cap _ _ _ c rest Hcap). cbn [bind]. eauto.
Qed.

Lemma select_image_inhabited (raw_bounds normalized filtered others : list Rect)
    (largest fallback : Rect) :
  scan raw_bounds = Ok (normalized, filtered) ->
  sort_stable area_gt normalized = largest :: others ->
  image_fallback largest = Ok fallback ->
  image_page_area page_width page_height * min_crop_area_ratio
  <= rect_width fallback * rect_height fallback ->
  exists selected : list Rect,
    select_image raw_bounds = Ok selected /\ selected <> [].
Proof.
  intros Es El Ef Harea. unfold select_image_crop_boxes.
  rewrite Es. cbn [bind fst snd].
  destruct (greedy_select_ok (fun bounds : Rect => bounds) (85 # 100)
              max_crops_per_page (sort_stable area_gt filtered) []
              (FOP_nil _) (or_intror eq_refl))
    as (result & E & _).
  rewrite E. cbn [bind].
  destruct result as [|c result'].
  - rewrite El, Ef. cbn [bind]. apply Qle_bool_iff in Harea. rewrite Harea.
    eexists. split; [reflexivity | discriminate].
  - eexists. split; [reflexivity | discriminate].
Qed.

End ImageSelectorFacts.

(** ** The selectors: overlap, cap and fallback *)

(** C2, as the code has it.  Any two distinct candidates returned by
    [select_text_crop_candidates] have an intersection over union of at most
    0.72, and any two distinct rectangles returned by
    [select_image_crop_boxes] one of at most 0.85: a candidate is suppressed
    only when the ratio exceeds the threshold. *)
Theorem selected_pairs_within_threshold :
  (forall (page_width page_height : Q) (max_text_crops_per_page : Z)
          (text_block_padding_px min_crop_edge_px min_text_block_height_px : Q)
          (min_text_block_char_length min_text_lines_per_block : Z)
          (max_text_lines_per_block max_context_length : Z)
          (text_lines : list TextLine),
      exists selected : list TextCropCandidate,
        select_text_crop_candidates page_width page_height
          max_text_crops_per_page text_block_padding_px min_crop_edge_px
          min_text_block_height_px min_text_block_char_length
          min_text_lines_per_block max_text_lines_per_block max_context_length
          text_lines = Ok selected
        /\ forall (i j : nat) (a b : TextCropCandidate),
             i <> j -> nth_error selected i = Some a ->
             nth_error selected j = Some b ->
             exists v : Q,
               intersection_over_union (cand_bounds a) (cand_bounds b) = Ok v
               /\ v <= 72 # 100)
  /\ (forall (sqrt_value : Q -> Q) (page_width page_height : Q)
             (min_crop_edge_px min_crop_area_ratio max_crop_area_ratio : Q)
             (max_crops_per_page : Z) (raw_bounds : list Rect),
        exists selected : list Rect,
          select_image_crop_boxes sqrt_value page_width page_height
            min_crop_edge_px min_crop_area_ratio max_crop_area_ratio
            max_crops_per_page raw_bounds = Ok selected
          /\ forall (i j : nat) (a b : Rect),
               i <> j -> nth_error selected i = Some a ->
               nth_error selected j = Some b ->
               exists v : Q,
                 intersection_over_union a b = Ok v /\ v <= 85 # 100).
Proof.
  split.
  - intros.
    destruct (select_text_ok page_width page_height max_text_crops_per_page
                text_block_padding_px min_crop_edge_px min_text_block_height_px
                min_text_block_char_length min_text_lines_per_block
                max_text_lines_per_block max_context_length text_lines)
      as (selected & E & Hap & _).
    exists selected. split; [exact E|]. intros i j a b Hij Hi Hj.
    exists (iou_value (cand_bounds a) (cand_bounds b)).
    split; [apply iou_total|]. exact (apart_nth _ _ _ i j a b Hap Hij Hi Hj).
  - intros.
    destruct (select_image_ok sqrt_value page_width page_height min_crop_edge_px
                min_crop_area_ratio max_crop_area_ratio max_crops_per_page
                raw_bounds)
      as (selected & E & Hap & _).
    exists selected. split; [exact E|]. intros i j a b Hij Hi Hj.
    exists (iou_value a b).
    split; [apply iou_total|].
    exact (apart_nth (fun bounds => bounds) _ _ i j a b Hap Hij Hi Hj).
Qed.

Lemma selected_pairs_at_threshold :
  (exists (a b : TextCropCandidate) (v : Q),
      select_text_crop_candidates 1000 1000 6 0 120 80 1 1 1 320
        [mkLine "alpha beta gamma" (mkRect 0 0 500 100);
         mkLine "delta" (mkRect 0 0 360 100)] = Ok [a; b]
      /\ intersection_over_union (cand_bounds a) (cand_bounds b) = Ok v
      /\ ~ v < 72 # 100)
  /\ (exists (a b : Rect) (v : Q),
        select_image_crop_boxes sqrt_scaled 1000 1000 120 (8 # 1000) (72 # 100) 4
          [mkRect 0 0 400 200; mkRect 0 0 340 200] = Ok [a; b]
        /\ intersection_over_union a b = Ok v
        /\ ~ v < 85 # 100).
Proof.
  split.
  - do 3 eexists. split; [vm_compute; reflexivity|].
    split; [vm_compute; reflexivity|].
    intros H. vm_compute in H. discriminate.
  - do 3 eexists. split; [vm_compute; reflexivity|].
    split; [vm_compute; reflexivity|].
    intros H. vm_compute in H. discriminate.
Qed.

(** C7, as the code has it.  The selection goes through the candidates in
    descending score (text) or descending area (image) and stops at the cap,
    which is tested after a candidate was taken: each selector returns at
    most [max 1 cap] entries, in that order. *)
Theorem selection_capped :
  (forall (page_width page_height : Q) (max_text_crops_per_page : Z)
          (text_block_padding_px min_crop_edge_px min_text_block_height_px : Q)
          (min_text_block_char_length min_text_lines_per_block : Z)
          (max_text_lines_per_block max_context_length : Z)
          (text_lines : list TextLine),
      exists selected : list TextCropCandidate,
        select_text_crop_candidates page_width page_height
          max_text_crops_per_page text_block_padding_px min_crop_edge_px
          min_text_block_height_px min_text_block_char_length
          min_text_lines_per_block max_text_lines_per_block max_context_length
          text_lines = Ok selected
        /\ (len selected <= Z.max 1 max_text_crops_per_page)%Z
        /\ StronglySorted (fun a b => score b <= score a) selected)
  /\ (forall (sqrt_value : Q -> Q) (page_width page_height : Q)
             (min_crop_edge_px min_crop_area_ratio max_crop_area_ratio : Q)
             (max_crops_per_page : Z) (raw_bounds : list Rect),
        exists selected : list Rect,
          select_image_crop_boxes sqrt_value page_width page_height
            min_crop_edge_px min_crop_area_ratio max_crop_area_ratio
            max_crops_per_page raw_bounds = Ok selected
          /\ (len selected <= Z.max 1 max_crops_per_page)%Z
          /\ StronglySorted (fun a b => rect_area b <= rect_area a) selected).
Proof.
  split.
  - intros.
    destruct (select_text_ok page_width page_height max_text_crops_per_page
                text_block_padding_px min_crop_edge_px min_text_block_height_px
                min_text_block_char_length min_text_lines_per_block
                max_text_lines_per_block max_context_length text_lines)
      as (selected & E & _ & Hlen & Hs).
    eauto.
  - intros.
    destruct (select_image_ok sqrt_value page_width page_height min_crop_edge_px
                min_crop_area_ratio max_crop_area_ratio max_crops_per_page
                raw_bounds)
      as (selected & E & _ & Hlen & Hs).
    eauto.
Qed.

Lemma selection_exceeds_zero_cap :
  (exists selected : list TextCropCandidate,
      select_text_crop_candidates 1000 1000 0 0 120 80 1 1 1 320
        [mkLine "alpha beta gamma" (mkRect 0 0 500 100);
         mkLine "delta" (mkRect 0 0 360 100)] = Ok selected
      /\ ~ (len selected <= 0)%Z)
  /\ (exists selected : list Rect,
        select_image_crop_boxes sqrt_scaled 1000 1000 120 (8 # 1000) (72 # 100) 0
          [mkRect 0 0 400 200; mkRect 0 0 340 200] = Ok selected
        /\ ~ (len selected <= 0)%Z).
Proof.
  split; eexists; (split; [vm_compute; reflexivity|]);
    intros H; vm_compute in H; apply H; reflexivity.
Qed.

(** C9.  With a cap of zero and at least one candidate left by the filters,
    each selector returns exactly one entry: the cap is tested after the
    first candidate was taken. *)
Theorem zero_cap_returns_one :
  (forall (page_width page_height : Q)
          (text_block_padding_px min_crop_edge_px min_text_block_height_px : Q)
          (min_text_block_char_length min_text_lines_per_block : Z)
          (max_text_lines_per_block max_context_length : Z)
          (text_lines : list TextLine),
      raw_text_candidates page_width page_height text_block_padding_px
        min_crop_edge_px min_text_block_height_px min_text_block_char_length
        min_text_lines_per_block max_text_lines_per_block max_context_length
        text_lines <> [] ->
      exists candidate : TextCropCandidate,
        select_text_crop_candidates page_width page_height 0
          text_block_padding_px min_crop_edge_px min_text_block_height_px
          min_text_block_char_length min_text_lines_per_block
          max_text_lines_per_block max_context_length text_lines
        = Ok [candidate])
  /\ (forall (sqrt_value : Q -> Q) (page_width page_height : Q)
             (min_crop_edge_px min_crop_area_ratio max_crop_area_ratio : Q)
             (raw_bounds normalized filtered : list Rect),
        scan_images page_width page_height min_crop_edge_px min_crop_area_ratio
          max_crop_area_ratio raw_bounds = Ok (normalized, filtered) ->
        filtered <> [] ->
        exists bounds : Rect,
          select_image_crop_boxes sqrt_value page_width page_height
            min_crop_edge_px min_crop_area_ratio max_crop_area_ratio 0
            raw_bounds = Ok [bounds]).
Proof.
  split.
  - intros. apply select_text_zero_cap; [lia | assumption].
  - intros. eapply select_image_zero_cap; [lia | eassumption | assumption].
Qed.

Lemma zero_cap_returns_one_witness :
  (exists candidate : TextCropCandidate,
      select_text_crop_candidates 1000 1000 0 0 120 80 1 1 1 320
        [mkLine "alpha beta gamma" (mkRect 0 0 500 100);
         mkLine "delta" (mkRect 0 0 360 100)] = Ok [candidate])
  /\ (exists bounds : Rect,
        select_image_crop_boxes sqrt_scaled 1000 1000 120 (8 # 1000) (72 # 100) 0
          [mkRect 0 0 400 200; mkRect 0 0 340 200] = Ok [bounds]).
Proof.
  split.
  - apply (proj1 zero_cap_returns_one). vm_compute. discriminate.
  - eapply (proj2 zero_cap_returns_one);
      [vm_compute; reflexivity | discriminate].
Defined.


(** * Further properties of the code *)

(** ** Rectangles *)

Lemma clamp_bounds_bounds (r : Rect) (W H : Q) :
  let c := clamp_bounds r W H in
  0 <= rect_x c /\ 0 <= rect_y c /\ 0 <= rect_width c /\ 0 <= rect_height c
  /\ rect_x c + rect_width c <= Qmax W (rect_x c)
  /\ rect_y c + rect_height c <= Qmax H (rect_y c).
Proof.
  unfold clamp_bounds; cbn [rect_x rect_y rect_width rect_height].
  set (fx := inject_Z (Qfloor (rect_x r))).
  set (fy := inject_Z (Qfloor (rect_y r))).
  set (cx := inject_Z (Qceiling (rect_x r + rect_width r))).
  set (cy := inject_Z (Qceiling (rect_y r + rect_height r))).
  repeat split; split_minmax; lra.
Qed.

Lemma clamp_covers_inside (r : Rect) (W H : Q) :
  0 <= rect_x r -> 0 <= rect_y r ->
  0 <= rect_width r -> 0 <= rect_height r ->
  rect_x r + rect_width r <= W -> rect_y r + rect_height r <= H ->
  let c := clamp_bounds r W H in
  rect_x c <= rect_x r
  /\ rect_x r + rect_width r <= rect_x c + rect_width c
  /\ rect_x c + rect_width c <= W
  /\ rect_y c <= rect_y r
  /\ rect_y r + rect_height r <= rect_y c + rect_height c
  /\ rect_y c + rect_height c <= H.
Proof.
  intros Hx Hy Hw Hh HW HH.
  unfold clamp_bounds; cbn [rect_x rect_y rect_width rect_height].
  pose proof (Qfloor_le (rect_x r)). pose proof (Qfloor_le (rect_y r)).
  pose proof (Qle_ceiling (rect_x r + rect_width r)).
  pose proof (Qle_ceiling (rect_y r + rect_height r)).
  set (fx := inject_Z (Qfloor (rect_x r))) in *.
  set (fy := inject_Z (Qfloor (rect_y r))) in *.
  set (cx := inject_Z (Qceiling (rect_x r + rect_width r))) in *.
  set (cy := inject_Z (Qceiling (rect_y r + rect_height r))) in *.
  repeat split; split_minmax; lra.
Qed.

(** X1.  A rectangle of non-negative size inside the page is never cut by
    [clamp_bounds]: the result covers it and stays inside the page. *)
Theorem clamp_bounds_covers (r : Rect) (W H : Q) :
  0 <= rect_x r -> 0 <= rect_y r ->
  0 <= rect_width r -> 0 <= rect_height r ->
  rect_x r + rect_width r <= W -> rect_y r + rect_height r <= H ->
  let c := clamp_bounds r W H in
  rect_x c <= rect_x r
  /\ rect_x r + rect_width r <= rect_x c + rect_width c
  /\ rect_x c + rect_width c <= W
  /\ rect_y c <= rect_y r
  /\ rect_y r + rect_height r <= rect_y c + rect_height c
  /\ rect_y c + rect_height c <= H.
Proof. exact (clamp_covers_inside r W H). Qed.

Lemma clamp_bounds_covers_witness :
  let c := clamp_bounds (mkRect (5 # 2) (1 # 3) 4 (7 # 2)) 10 10 in
  rect_x c <= 5 # 2 /\ (5 # 2) + 4 <= rect_x c + rect_width c
  /\ rect_x c + rect_width c <= 10
  /\ rect_y c <= 1 # 3 /\ (1 # 3) + (7 # 2) <= rect_y c + rect_height c
  /\ rect_y c + rect_height c <= 10.
Proof.
  apply (clamp_bounds_covers (mkRect (5 # 2) (1 # 3) 4 (7 # 2)) 10 10);
    vm_compute; discriminate.
Defined.

(** X2.  On a rectangle with integer coordinates and non-negative size that lies
    inside the page, [clamp_bounds] changes nothing. *)
Theorem clamp_bounds_integer_inside (x y w h : Z) (W H : Q) :
  (0 <= x)%Z -> (0 <= y)%Z -> (0 <= w)%Z -> (0 <= h)%Z ->
  inject_Z (x + w) <= W -> inject_Z (y + h) <= H ->
  let c :=
    clamp_bounds (mkRect (inject_Z x) (inject_Z y) (inject_Z w) (inject_Z h))
      W H in
  rect_x c == inject_Z x /\ rect_y c == inject_Z y
  /\ rect_width c == inject_Z w /\ rect_height c == inject_Z h.
Proof.
  intros Hx Hy Hw Hh HW HH.
  unfold clamp_bounds; cbn [rect_x rect_y rect_width rect_height].
  rewrite !Qfloor_Z, <- !inject_Z_plus, !Qceiling_Z.
  rewrite inject_Z_plus in HW, HH |- *. rewrite (inject_Z_plus y h).
  assert (0 <= inject_Z x) by (rewrite (Zle_Qle 0 x) in Hx; exact Hx).
  assert (0 <= inject_Z y) by (rewrite (Zle_Qle 0 y) in Hy; exact Hy).
  assert (0 <= inject_Z w) by (rewrite (Zle_Qle 0 w) in Hw; exact Hw).
  assert (0 <= inject_Z h) by (rewrite (Zle_Qle 0 h) in Hh; exact Hh).
  repeat split; split_minmax; lra.
Qed.

Lemma clamp_bounds_integer_inside_witness :
  let c := clamp_bounds (mkRect 3 4 5 6) 10 10 in
  rect_x c == 3 /\ rect_y c == 4 /\ rect_width c == 5 /\ rect_height c == 6.
Proof.
  apply (clamp_bounds_integer_inside 3 4 5 6 10 10);
    try lia; vm_compute; discriminate.
Defined.

(** A clamped rectangle of positive width and height lies inside the page. *)
Lemma clamp_bounds_positive_inside (r : Rect) (W H : Q) :
  let c := clamp_bounds r W H in
  0 < rect_width c -> 0 < rect_height c ->
  0 <= rect_x c /\ 0 <= rect_y c
  /\ rect_x c + rect_width c <= W /\ rect_y c + rect_height c <= H.
Proof.
  intros c Hw Hh.
  destruct (clamp_bounds_bounds r W H) as (Hx & Hy & _ & _ & Hxw & Hyh).
  fold c in Hx, Hy, Hxw, Hyh.
  repeat split; try assumption.
  - destruct (Qmax_cases W (rect_x c)) as [[? E]|[? E]]; rewrite E in Hxw; lra.
  - destruct (Qmax_cases H (rect_y c)) as [[? E]|[? E]]; rewrite E in Hyh; lra.
Qed.

(** X3.  A missing rectangle gives the empty rectangle at the origin, whatever
    the minimum size and the page. *)
Theorem ensure_minimum_bounds_size_missing
    (min_width min_height page_width page_height : Q) :
  ensure_minimum_bounds_size None min_width min_height page_width page_height
  = Ok (mkRect 0 0 0 0).
Proof.
  cbn [ensure_minimum_bounds_size]. f_equal.
  unfold clamp_bounds; cbn [rect_x rect_y rect_width rect_height].
  change (Qmax 0 (inject_Z (Qfloor 0))) with 0.
  change (inject_Z (Qceiling (0 + 0))) with 0.
  assert (Hext : forall P : Q, Qmax 0 (Qmin P 0 - 0) = 0).
  { intros P. destruct (Qmax_cases 0 (Qmin P 0 - 0)) as [[Hlt _]|[_ E]];
      [|exact E].
    destruct (Qmin_cases P 0) as [[? Em]|[? Em]]; rewrite Em in Hlt; lra. }
  now rewrite !Hext.
Qed.

Lemma ensure_minimum_grown (bounds : Rect) (min_width min_height W H : Q) :
  ensure_minimum_bounds_size (Some bounds) min_width min_height W H
  = Ok (clamp_bounds (grown_bounds bounds min_width min_height) W H).
Proof.
  unfold ensure_minimum_bounds_size, grown_bounds. cbv zeta.
  destruct (Qltb (rect_width bounds) min_width);
    destruct (Qltb (rect_height bounds) min_height); reflexivity.
Qed.

Lemma grown_bounds_covers (bounds : Rect) (min_width min_height : Q) :
  covers (grown_bounds bounds min_width min_height) bounds
  /\ rect_width bounds <= rect_width (grown_bounds bounds min_width min_height)
  /\ min_width <= rect_width (grown_bounds bounds min_width min_height)
  /\ rect_height bounds <= rect_height (grown_bounds bounds min_width min_height)
  /\ min_height <= rect_height (grown_bounds bounds min_width min_height).
Proof.
  unfold covers, grown_bounds; cbn [rect_x rect_y rect_width rect_height].
  assert (Hgw : 2 * ((min_width - rect_width bounds) / 2)
                == min_width - rect_width bounds) by field.
  assert (Hgh : 2 * ((min_height - rect_height bounds) / 2)
                == min_height - rect_height bounds) by field.
  set (gw := (min_width - rect_width bounds) / 2) in *.
  set (gh := (min_height - rect_height bounds) / 2) in *.
  destruct (Qltb (rect_width bounds) min_width) eqn:Ew;
    destruct (Qltb (rect_height bounds) min_height) eqn:Eh;
    try apply Qltb_lt in Ew; try apply Qltb_lt in Eh;
    try apply Qltb_ge in Ew; try apply Qltb_ge in Eh;
    repeat split; lra.
Qed.

(** X4.  [ensure_minimum_bounds_size] never cuts a rectangle that lies inside the
    page: the result covers it and lies inside the page as well. *)
Theorem ensure_minimum_bounds_size_covers
    (bounds : Rect) (min_width min_height W H : Q) :
  inside_page bounds W H ->
  exists r : Rect,
    ensure_minimum_bounds_size (Some bounds) min_width min_height W H = Ok r
    /\ covers r bounds /\ inside_page r W H.
Proof.
  intros (Hx & Hy & Hw & Hh & HW & HH).
  rewrite ensure_minimum_grown. eexists. split; [reflexivity|].
  destruct (grown_bounds_covers bounds min_width min_height)
    as ((Gx & Gxw & Gy & Gyh) & _).
  set (g := grown_bounds bounds min_width min_height) in *.
  unfold covers, inside_page, clamp_bounds;
    cbn [rect_x rect_y rect_width rect_height].
  pose proof (Qfloor_le (rect_x g)). pose proof (Qfloor_le (rect_y g)).
  pose proof (Qle_ceiling (rect_x g + rect_width g)).
  pose proof (Qle_ceiling (rect_y g + rect_height g)).
  set (fx := inject_Z (Qfloor (rect_x g))) in *.
  set (fy := inject_Z (Qfloor (rect_y g))) in *.
  set (cx := inject_Z (Qceiling (rect_x g + rect_width g))) in *.
  set (cy := inject_Z (Qceiling (rect_y g + rect_height g))) in *.
  repeat split; split_minmax; lra.
Qed.

Lemma ensure_minimum_bounds_size_covers_witness :
  exists r : Rect,
    ensure_minimum_bounds_size (Some (mkRect 0 0 10 10)) 120 56 1000 1000 = Ok r
    /\ covers r (mkRect 0 0 10 10) /\ inside_page r 1000 1000.
Proof.
  apply ensure_minimum_bounds_size_covers.
  repeat split; vm_compute; discriminate.
Defined.

(** X5.  When the rectangle grown about its centre fits in the page, the result
    of [ensure_minimum_bounds_size] has at least the minimum size. *)
Theorem ensure_minimum_bounds_size_reaches
    (bounds : Rect) (min_width min_height W H : Q) :
  inside_page (grown_bounds bounds min_width min_height) W H ->
  exists r : Rect,
    ensure_minimum_bounds_size (Some bounds) min_width min_height W H = Ok r
    /\ min_width <= rect_width r /\ min_height <= rect_height r
    /\ rect_width bounds <= rect_width r /\ rect_height bounds <= rect_height r.
Proof.
  intros (Hx & Hy & Hw & Hh & HW & HH).
  rewrite ensure_minimum_grown. eexists. split; [reflexivity|].
  destruct (grown_bounds_covers bounds min_width min_height)
    as (_ & Gw & Gmw & Gh & Gmh).
  set (g := grown_bounds bounds min_width min_height) in *.
  destruct (clamp_covers_inside g W H Hx Hy Hw Hh HW HH)
    as (C1 & C2 & _ & C3 & C4 & _).
  repeat split; lra.
Qed.

Lemma ensure_minimum_bounds_size_reaches_witness :
  exists r : Rect,
    ensure_minimum_bounds_size (Some (mkRect 100 100 10 10)) 120 56 1000 1000
    = Ok r
    /\ 120 <= rect_width r /\ 56 <= rect_height r
    /\ 10 <= rect_width r /\ 10 <= rect_height r.
Proof.
  apply ensure_minimum_bounds_size_reaches.
  repeat split; vm_compute; discriminate.
Defined.

(** ** Overlap tests *)

Lemma intersects_with_margin_spec (t c : Rect) (margin : Q) :
  intersects_with_margin t c margin = true <->
  rect_x c - margin <= rect_x t + rect_width t
  /\ rect_x t <= rect_x c + rect_width c + margin
  /\ rect_y c - margin <= rect_y t + rect_height t
  /\ rect_y t <= rect_y c + rect_height c + margin.
Proof.
  unfold intersects_with_margin. cbv zeta.
  rewrite negb_true_iff, !orb_false_iff, !Qltb_ge. tauto.
Qed.

(** X6.  A larger margin keeps every line that a smaller margin keeps. *)
Theorem intersects_with_margin_monotone (t c : Rect) (m m' : Q) :
  m <= m' ->
  intersects_with_margin t c m = true -> intersects_with_margin t c m' = true.
Proof.
  intros Hm. rewrite !intersects_with_margin_spec.
  intros (H1 & H2 & H3 & H4). repeat split; lra.
Qed.

Lemma intersects_with_margin_monotone_witness :
  intersects_with_margin (mkRect 0 0 10 10) (mkRect 15 0 10 10) 100 = true.
Proof.
  apply (intersects_with_margin_monotone _ _ 5 100);
    [vm_compute; discriminate | reflexivity].
Defined.

Lemma overlap_extent_positive (p s q t : Q) :
  0 < Qmax 0 (Qmin (p + s) (q + t) - Qmax p q) -> p < q + t /\ q < p + s.
Proof. intros H. split; split_minmax; lra. Qed.

(** X7.  Two rectangles with a positive intersection area pass the margin test
    for every non-negative margin. *)
Theorem positive_overlap_intersects (a b : Rect) (margin : Q) :
  0 < intersection_area a b -> 0 <= margin ->
  intersects_with_margin a b margin = true.
Proof.
  intros Hpos Hm. apply intersects_with_margin_spec.
  unfold intersection_area in Hpos. cbv zeta in Hpos.
  destruct (overlap_extent (rect_x a) (rect_width a) (rect_x b) (rect_width b))
    as [Hw0 _].
  destruct (overlap_extent (rect_y a) (rect_height a) (rect_y b) (rect_height b))
    as [Hh0 _].
  cbv zeta in Hw0, Hh0.
  destruct (product_pos _ _ Hw0 Hh0 Hpos) as [Hw Hh].
  apply overlap_extent_positive in Hw. apply overlap_extent_positive in Hh.
  repeat split; lra.
Qed.

Lemma positive_overlap_intersects_witness :
  intersects_with_margin (mkRect 0 0 10 10) (mkRect 5 5 10 10) 0 = true.
Proof.
  apply positive_overlap_intersects; vm_compute; reflexivity || discriminate.
Defined.

(** X8.  Rectangles that do not overlap on one axis have an intersection over
    union of exactly 0, so neither can suppress the other. *)
Theorem disjoint_iou_zero (a b : Rect) :
  rect_x a + rect_width a <= rect_x b \/ rect_x b + rect_width b <= rect_x a
  \/ rect_y a + rect_height a <= rect_y b
  \/ rect_y b + rect_height b <= rect_y a ->
  intersection_over_union a b = Ok 0.
Proof.
  intros Hd. unfold intersection_over_union.
  assert (Hz : intersection_area a b <= 0).
  { unfold intersection_area. cbv zeta.
    destruct (overlap_extent (rect_x a) (rect_width a) (rect_x b) (rect_width b))
      as [Hw0 Hw].
    destruct (overlap_extent (rect_y a) (rect_height a) (rect_y b)
                (rect_height b)) as [Hh0 Hh].
    cbv zeta in Hw0, Hw, Hh0, Hh.
    set (iw := Qmax 0 (Qmin (rect_x a + rect_width a) (rect_x b + rect_width b)
                       - Qmax (rect_x a) (rect_x b))) in *.
    set (ih := Qmax 0 (Qmin (rect_y a + rect_height a)
                         (rect_y b + rect_height b)
                       - Qmax (rect_y a) (rect_y b))) in *.
    assert (Hzero : iw == 0 \/ ih == 0).
    { destruct Hd as [H|[H|[H|H]]];
        [left | left | right | right]; subst iw ih; split_minmax; lra. }
    destruct Hzero as [E|E]; rewrite E; lra. }
  apply Qle_bool_iff in Hz. now rewrite Hz.
Qed.

Lemma disjoint_iou_zero_witness :
  intersection_over_union (mkRect 0 0 10 10) (mkRect 10 0 10 10) = Ok 0.
Proof.
  apply disjoint_iou_zero. left. vm_compute. discriminate.
Defined.

(** ** Texts *)

Lemma sub_spaces_visible (in_run : bool) (s : string) :
  visible (sub_spaces in_run s) = visible s
  /\ (String.length (sub_spaces in_run s) <= String.length s)%nat.
Proof.
  revert in_run. induction s as [|c rest IH]; intros in_run; cbn; [auto|].
  destruct (isspace c) eqn:Ec.
  - destruct in_run.
    + destruct (IH true). split; [assumption | lia].
    + cbn. destruct (IH true) as [-> ?]. split; [reflexivity | lia].
  - cbn. rewrite Ec. destruct (IH false) as [-> ?]. split; [reflexivity | lia].
Qed.

Lemma lstrip_visible (s : string) :
  visible (lstrip s) = visible s
  /\ (String.length (lstrip s) <= String.length s)%nat.
Proof.
  induction s as [|c rest [IH1 IH2]]; cbn; [auto|].
  destruct (isspace c) eqn:Ec; [split; [assumption | lia]|].
  cbn. rewrite Ec. auto.
Qed.

Lemma rstrip_visible (s : string) :
  visible (rstrip s) = visible s
  /\ (String.length (rstrip s) <= String.length s)%nat.
Proof.
  induction s as [|c rest [IH1 IH2]]; cbn; [auto|].
  destruct (rstrip rest) as [|d kept] eqn:Er.
  - cbn in IH1. destruct (isspace c) eqn:Ec; cbn.
    + split; [assumption | lia].
    + rewrite Ec, <- IH1. split; [reflexivity | lia].
  - cbn [visible String.length] in *. rewrite IH1. split; [reflexivity | lia].
Qed.

Lemma visible_empty_shape (s : string) :
  single_spaced s -> no_leading_space s -> visible s = EmptyString ->
  s = EmptyString.
Proof.
  destruct s as [|c rest]; [reflexivity|]. cbn. intros _ Hc. now rewrite Hc.
Qed.

Lemma normalize_whitespace_keeps (s : string) :
  visible (normalize_whitespace s) = visible s
  /\ (str_len (normalize_whitespace s) <= str_len s)%Z
  /\ (normalize_whitespace s = EmptyString <-> visible s = EmptyString).
Proof.
  assert (Hv : visible (normalize_whitespace s) = visible s
               /\ (String.length (normalize_whitespace s) <= String.length s)%nat).
  { rewrite normalize_whitespace_strip. unfold strip.
    destruct (rstrip_visible (lstrip (sub_spaces false s))) as [-> L1].
    destruct (lstrip_visible (sub_spaces false s)) as [-> L2].
    destruct (sub_spaces_visible false s) as [-> L3].
    split; [reflexivity | lia]. }
  destruct Hv as [Hv Hl].
  split; [exact Hv|]. split; [unfold str_len; lia|].
  split.
  - intros E. rewrite <- Hv, E. reflexivity.
  - intros E. destruct (normalize_whitespace_shape s) as [Hs Hlead].
    apply visible_empty_shape; congruence.
Qed.

(** X9.  [normalize_whitespace] keeps the characters that are not whitespace, in
    their order, never makes a text longer, and returns the empty text
    exactly on the texts without such a character. *)
Theorem normalize_whitespace_visible (s : string) :
  visible (normalize_whitespace s) = visible s
  /\ (str_len (normalize_whitespace s) <= str_len s)%Z
  /\ (normalize_whitespace s = EmptyString <-> visible s = EmptyString).
Proof. exact (normalize_whitespace_keeps s). Qed.

Lemma all_chars_app (test : ascii -> bool) (s t : string) :
  all_chars test (s ++ t)%string = all_chars test s && all_chars test t.
Proof.
  induction s as [|c rest IH]; cbn; [reflexivity|].
  now rewrite IH, andb_assoc.
Qed.

Lemma split_from_chars (word s : string) :
  all_chars is_token_char word = true ->
  all_chars (fun c => isspace c || is_token_char c) s = true ->
  Forall (fun token => all_chars is_token_char token = true) (split_from word s).
Proof.
  revert word. induction s as [|c rest IH]; intros word Hword Hs; cbn.
  - destruct word; constructor; [assumption | constructor].
  - cbn in Hs. apply andb_true_iff in Hs. destruct Hs as [Hc Hrest].
    destruct (isspace c) eqn:Ec.
    + destruct word as [|w word'].
      * now apply IH.
      * constructor; [exact Hword | now apply IH].
    + apply IH; [|exact Hrest].
      rewrite all_chars_app, Hword. cbn. cbn in Hc. now rewrite Hc.
Qed.

Lemma sub_others_chars (s : string) :
  all_chars (fun c => isspace c || is_token_char c) (sub_others s) = true.
Proof.
  induction s as [|c rest IH]; cbn [sub_others all_chars]; [reflexivity|].
  rewrite IH, andb_true_r.
  destruct (is_other c) eqn:Eo; [reflexivity|].
  unfold is_other in Eo. apply negb_false_iff in Eo.
  unfold is_token_char. cbv zeta in Eo |- *.
  now rewrite orb_comm.
Qed.

(** X10.  Every token of [tokenize_for_score] has at least three characters, all
    of them lower-case letters or digits. *)
Theorem tokenize_for_score_tokens (value : string) :
  Forall
    (fun token =>
       (3 <= str_len token)%Z /\ all_chars is_token_char token = true)
    (tokenize_for_score value).
Proof.
  unfold tokenize_for_score. cbv zeta.
  apply Forall_forall. intros token Hin.
  apply filter_In in Hin. destruct Hin as [Hin Hlen].
  split; [now apply Z.leb_le|].
  pose proof (split_from_chars "" _ eq_refl
                (sub_others_chars (lower (normalize_whitespace value)))) as Hall.
  rewrite Forall_forall in Hall. now apply Hall.
Qed.

Lemma substring_length (m : nat) (s : string) :
  String.length (substring 0 m s) = Nat.min m (String.length s).
Proof.
  revert s. induction m as [|m IH]; intros s; destruct s as [|c rest]; cbn;
    try reflexivity.
  now rewrite IH.
Qed.

(** [s[:n]] is never longer than [s], and for [0 <= n] has at most [n]
    characters. *)
Lemma slice_to_length (s : string) (n : Z) :
  (str_len (slice_to s n) <= str_len s)%Z
  /\ ((0 <= n)%Z -> (str_len (slice_to s n) <= n)%Z).
Proof.
  unfold slice_to, str_len.
  destruct (0 <=? n)%Z eqn:E; rewrite substring_length.
  - apply Z.leb_le in E. split; [lia|]. intros _. lia.
  - apply Z.leb_gt in E. split; lia.
Qed.

(** ** The context of a crop *)

(** X11.  The context text has at most [max_length] characters (for a
    non-negative [max_length]), and is empty when no line passes the margin
    test. *)
Theorem build_crop_context_text_bounded (text_lines : list TextLine)
    (crop_bounds : Rect) (margin : Q) (max_length : Z) :
  ((0 <= max_length)%Z ->
   (str_len (build_crop_context_text text_lines crop_bounds margin max_length)
    <= max_length)%Z)
  /\ (Forall
        (fun line =>
           intersects_with_margin (line_box line) crop_bounds margin = false)
        text_lines ->
      build_crop_context_text text_lines crop_bounds margin max_length
      = EmptyString).
Proof.
  unfold build_crop_context_text. split.
  - intros Hm. destruct text_lines; [cbn; lia|]. now apply slice_to_length.
  - intros Hall. destruct text_lines as [|line rest]; [reflexivity|].
    assert (Hf : filter
                   (fun l => intersects_with_margin (line_box l) crop_bounds margin)
                   (line :: rest) = []).
    { rewrite (filter_ext_in _ (fun _ => false)); [apply filter_false|].
      intros x Hx. rewrite Forall_forall in Hall. now apply Hall. }
    rewrite Hf. cbn. unfold slice_to. destruct (0 <=? max_length)%Z;
      [destruct (Z.to_nat max_length) | destruct (Z.to_nat _)]; reflexivity.
Qed.

Lemma build_crop_context_text_bounded_witness :
  (str_len
     (build_crop_context_text
        [mkLine "alpha beta" (mkRect 0 0 100 10);
         mkLine "far away" (mkRect 0 900 100 10)]
        (mkRect 0 20 100 50) 10 8) <= 8)%Z
  /\ build_crop_context_text
       [mkLine "far away" (mkRect 0 900 100 10)] (mkRect 0 20 100 50) 10 8
     = EmptyString.
Proof.
  split.
  - apply build_crop_context_text_bounded. lia.
  - apply build_crop_context_text_bounded. repeat constructor.
Defined.

(** ** The longest line *)

(** X12.  [longest_line] returns the first of the longest lines: the lines before
    it are strictly shorter and the lines after it are not longer. *)
Theorem longest_line_first_maximal (first : TextLine) (rest : list TextLine) :
  exists before after : list TextLine,
    first :: rest = before ++ longest_line first rest :: after
    /\ Forall
         (fun line =>
            (str_len (line_text line)
             < str_len (line_text (longest_line first rest)))%Z)
         before
    /\ Forall
         (fun line =>
            (str_len (line_text line)
             <= str_len (line_text (longest_line first rest)))%Z)
         after.
Proof.
  revert first. induction rest as [|line rest IH]; intros first.
  - exists [], []. cbn. repeat split; constructor.
  - cbn [longest_line].
    destruct (str_len (line_text first) <? str_len (line_text line))%Z eqn:E.
    + apply Z.ltb_lt in E.
      destruct (IH line) as (before & after & Hsplit & Hb & Ha).
      exists (first :: before), after. rewrite Hsplit.
      split; [reflexivity|]. split; [|exact Ha].
      constructor; [|exact Hb].
      destruct before as [|b before'].
      * cbn in Hsplit. injection Hsplit as <- _. exact E.
      * cbn in Hsplit. injection Hsplit as <- _.
        inversion Hb; subst. lia.
    + apply Z.ltb_ge in E.
      destruct (IH first) as (before & after & Hsplit & Hb & Ha).
      destruct before as [|b before'].
      * cbn in Hsplit. injection Hsplit as Hbest Hrest.
        exists [], (line :: rest). cbn. rewrite <- Hbest.
        split; [reflexivity|]. split; [constructor|].
        constructor; [exact E|]. rewrite Hrest, Hbest. exact Ha.
      * cbn in Hsplit. injection Hsplit as <- Hrest.
        exists (first :: line :: before'), after.
        split; [cbn; do 2 f_equal; exact Hrest|]. split; [|exact Ha].
        inversion Hb as [|? ? Hf Hb']; subst.
        constructor; [exact Hf|]. constructor; [lia | exact Hb'].
Qed.

(** ** What the selectors return *)

Lemma greedy_select_prefix {A : Type} (bounds_of : A -> Rect) (threshold : Q)
    (cap : Z) (candidates selected result : list A) :
  greedy_select bounds_of threshold cap candidates selected = Ok result ->
  exists taken : list A, result = selected ++ taken /\ incl taken candidates.
Proof.
  revert selected.
  induction candidates as [|candidate rest IH]; intros selected E.
  - cbn in E. injection E as <-. exists []. split; [now rewrite app_nil_r|].
    apply incl_nil_l.
  - cbn [greedy_select] in E. rewrite overlaps_existing_ok in E. cbn [bind] in E.
    set (overlaps := existsb _ selected) in E.
    destruct overlaps.
    + destruct (cap <=? len selected)%Z.
      * injection E as <-. exists []. split; [now rewrite app_nil_r|].
        apply incl_nil_l.
      * destruct (IH _ E) as (taken & -> & Hin). exists taken.
        split; [reflexivity | now apply incl_tl].
    + destruct (cap <=? len (selected ++ [candidate]))%Z.
      * injection E as <-. exists [candidate]. split; [reflexivity|].
        intros x [<-|[]]. now left.
      * destruct (IH _ E) as (taken & -> & Hin). exists (candidate :: taken).
        split; [now rewrite <- app_assoc|].
        apply incl_cons; [now left | now apply incl_tl].
Qed.

Section TextSelectorResults.

Variables page_width page_height : Q.
Variable max_text_crops_per_page : Z.
Variables text_block_padding_px min_crop_edge_px min_text_block_height_px : Q.
Variables min_text_block_char_length min_text_lines_per_block : Z.
Variables max_text_lines_per_block max_context_length : Z.

Local Abbreviation raw_of :=
  (raw_text_candidates page_width page_height text_block_padding_px
     min_crop_edge_px min_text_block_height_px min_text_block_char_length
     min_text_lines_per_block max_text_lines_per_block max_context_length).

Local Abbreviation select_text :=
  (select_text_crop_candidates page_width page_height max_text_crops_per_page
     text_block_padding_px min_crop_edge_px min_text_block_height_px
     min_text_block_char_length min_text_lines_per_block
     max_text_lines_per_block max_context_length).

Local Abbreviation fallback_of :=
  (text_fallback_bounds page_width page_height text_block_padding_px
     min_crop_edge_px min_text_block_height_px).

Local Abbreviation page_area := (text_page_area page_width page_height).

Local Abbreviation meets_thresholds :=
  (fun c : TextCropCandidate =>
     (exists r : Rect, cand_bounds c = clamp_bounds r page_width page_height)
     /\ min_crop_edge_px <= rect_width (cand_bounds c)
     /\ min_text_block_height_px <= rect_height (cand_bounds c)
     /\ page_area * (4 # 1000) <= rect_area (cand_bounds c)
     /\ rect_area (cand_bounds c) <= page_area * (68 # 100)
     /\ ((0 <= max_context_length)%Z ->
         (str_len (contextText c) <= max_context_length)%Z)).

Lemma sweep_window_thresholds (window : list TextLine) (combined_text : string)
    (extent : option Extent) (token_set : list string) (line_count : Z) :
  Forall meets_thresholds
    (sweep_window page_width page_height text_block_padding_px min_crop_edge_px
       min_text_block_height_px min_text_block_char_length
       min_text_lines_per_block max_context_length
       window combined_text extent token_set line_count).
Proof.
  revert combined_text extent token_set line_count.
  induction window as [|line rest IH]; intros; cbn [sweep_window];
    [constructor|].
  cbv zeta.
  destruct (_ || _); [apply IH|].
  destruct (_ || _ || _ || _) eqn:Ef; [apply IH|].
  constructor; [|apply IH].
  rewrite !orb_false_iff, !Qltb_ge in Ef. destruct Ef as (((H1 & H2) & H3) & H4).
  cbn [cand_bounds contextText]. unfold rect_area.
  split; [eauto|]. repeat split; try assumption.
  intros Hm. now apply slice_to_length.
Qed.

Lemma raw_candidates_meet (text_lines : list TextLine) :
  Forall
    (fun c : TextCropCandidate =>
       (exists r : Rect, cand_bounds c = clamp_bounds r page_width page_height)
       /\ min_crop_edge_px <= rect_width (cand_bounds c)
       /\ min_text_block_height_px <= rect_height (cand_bounds c)
       /\ text_page_area page_width page_height * (4 # 1000)
          <= rect_area (cand_bounds c)
       /\ rect_area (cand_bounds c)
          <= text_page_area page_width page_height * (68 # 100)
       /\ ((0 <= max_context_length)%Z ->
           (str_len (contextText c) <= max_context_length)%Z))
    (raw_of text_lines).
Proof.
  induction text_lines as [|line rest IH]; cbn [raw_text_candidates];
    [constructor|].
  apply Forall_app. split; [apply sweep_window_thresholds | exact IH].
Qed.

(** X13.  Every raw candidate of the sweep is a clamped rectangle that meets the
    thresholds: at least [min_crop_edge_px] wide and
    [min_text_block_height_px] high, with an area between 0.004 and 0.68 of
    the page area, and a context text of at most [max_context_length]
    characters. *)
Theorem raw_text_candidates_thresholds (text_lines : list TextLine) :
  Forall
    (fun c : TextCropCandidate =>
       (exists r : Rect, cand_bounds c = clamp_bounds r page_width page_height)
       /\ min_crop_edge_px <= rect_width (cand_bounds c)
       /\ min_text_block_height_px <= rect_height (cand_bounds c)
       /\ text_page_area page_width page_height * (4 # 1000)
          <= rect_area (cand_bounds c)
       /\ rect_area (cand_bounds c)
          <= text_page_area page_width page_height * (68 # 100)
       /\ ((0 <= max_context_length)%Z ->
           (str_len (contextText c) <= max_context_length)%Z))
    (raw_of text_lines).
Proof. exact (raw_candidates_meet text_lines). Qed.

(** What [select_text_crop_candidates] returns: raw candidates, nothing, or
    the one fallback candidate. *)
Lemma select_text_cases (text_lines : list TextLine)
    (selected : list TextCropCandidate) :
  select_text text_lines = Ok selected ->
  incl selected (raw_of text_lines)
  \/ exists (first : TextLine) (rest : list TextLine) (expanded : Rect),
       text_lines = first :: rest
       /\ fallback_of (longest_line first rest) = Ok expanded
       /\ page_area * (2 # 1000) <= rect_width expanded * rect_height expanded
       /\ selected
          = [mkCandidate expanded
               (slice_to (normalize_whitespace
                            (line_text (longest_line first rest)))
                  max_context_length)
               (Qmax 1 (inject_Z (str_len (line_text (longest_line first rest)))
                        * (2 # 10)))].
Proof.
  unfold select_text_crop_candidates. cbv zeta.
  destruct (greedy_select _ _ _ _ []) as [result|e] eqn:E; [|discriminate].
  cbn [bind].
  destruct (greedy_select_prefix _ _ _ _ _ _ E) as (taken & -> & Hin).
  cbn [app] in *.
  assert (Hraw : incl taken (raw_of text_lines)).
  { intros x Hx. apply (Permutation_in _ (sort_stable_perm score_gt _)).
    now apply Hin. }
  destruct taken as [|c taken']; [|intros H; injection H as <-; now left].
  destruct text_lines as [|first rest];
    [intros H; injection H as <-; left; apply incl_nil_l|].
  destruct (fallback_of (longest_line first rest)) as [expanded|e] eqn:Ef;
    [|discriminate].
  cbn [bind]. destruct (Qle_bool _ _) eqn:Ea.
  - intros H. injection H as <-. right. exists first, rest, expanded.
    apply Qle_bool_iff in Ea. repeat split; assumption.
  - intros H. injection H as <-. left. apply incl_nil_l.
Qed.

Lemma page_area_positive : 0 < page_area.
Proof. pose proof (floor_at_one (page_width * page_height)). unfold text_page_area. lra. Qed.

(** X14.  With positive minimum width and height, every candidate that
    [select_text_crop_candidates] returns lies inside the page with a
    positive width and height, the fallback candidate included. *)
Theorem select_text_inside_page (text_lines : list TextLine) :
  0 < min_crop_edge_px -> 0 < min_text_block_height_px ->
  exists selected : list TextCropCandidate,
    select_text text_lines = Ok selected
    /\ Forall
         (fun c =>
            inside_page (cand_bounds c) page_width page_height
            /\ 0 < rect_width (cand_bounds c)
            /\ 0 < rect_height (cand_bounds c))
         selected.
Proof.
  intros Hedge Hheight.
  destruct (select_text_ok page_width page_height max_text_crops_per_page
              text_block_padding_px min_crop_edge_px min_text_block_height_px
              min_text_block_char_length min_text_lines_per_block
              max_text_lines_per_block max_context_length text_lines)
    as (selected & E & _).
  exists selected. split; [exact E|].
  assert (Hclamp : forall r : Rect,
             0 < rect_width (clamp_bounds r page_width page_height) ->
             0 < rect_height (clamp_bounds r page_width page_height) ->
             inside_page (clamp_bounds r page_width page_height)
               page_width page_height).
  { intros r Hw Hh.
    destruct (clamp_bounds_positive_inside r page_width page_height Hw Hh)
      as (? & ? & ? & ?).
    unfold inside_page. repeat split; try assumption; lra. }
  destruct (select_text_cases text_lines selected E)
    as [Hin | (first & rest & expanded & -> & Ef & Harea & ->)].
  - apply Forall_forall. intros c Hc.
    pose proof (raw_candidates_meet text_lines) as Hraw.
    rewrite Forall_forall in Hraw.
    destruct (Hraw c (Hin c Hc)) as ([r Hr] & Hw & Hh & _).
    rewrite Hr in *. split; [apply Hclamp; lra | split; lra].
  - constructor; [|constructor]. cbn [cand_bounds].
    unfold text_fallback_bounds in Ef. rewrite ensure_minimum_grown in Ef.
    injection Ef as <-.
    set (c := clamp_bounds _ page_width page_height) in *.
    destruct (clamp_bounds_bounds
                (grown_bounds
                   (text_fallback_padded page_width page_height
                      text_block_padding_px (longest_line first rest))
                   min_crop_edge_px
                   (text_fallback_min_height min_text_block_height_px))
                page_width page_height) as (_ & _ & Hw0 & Hh0 & _).
    fold c in Hw0, Hh0.
    pose proof page_area_positive as Hpa.
    assert (Hpos : 0 < rect_width c * rect_height c) by nra.
    destruct (product_pos _ _ Hw0 Hh0 Hpos) as [Hw Hh].
    split; [now apply Hclamp | split; assumption].
Qed.

(** X15.  The context text of every returned candidate has at most
    [max_context_length] characters. *)
Theorem select_text_context_length (text_lines : list TextLine) :
  (0 <= max_context_length)%Z ->
  exists selected : list TextCropCandidate,
    select_text text_lines = Ok selected
    /\ Forall
         (fun c => (str_len (contextText c) <= max_context_length)%Z) selected.
Proof.
  intros Hm.
  destruct (select_text_ok page_width page_height max_text_crops_per_page
              text_block_padding_px min_crop_edge_px min_text_block_height_px
              min_text_block_char_length min_text_lines_per_block
              max_text_lines_per_block max_context_length text_lines)
    as (selected & E & _).
  exists selected. split; [exact E|].
  destruct (select_text_cases text_lines selected E)
    as [Hin | (first & rest & expanded & -> & Ef & Harea & ->)].
  - apply Forall_forall. intros c Hc.
    pose proof (raw_candidates_meet text_lines) as Hraw.
    rewrite Forall_forall in Hraw.
    destruct (Hraw c (Hin c Hc)) as (_ & _ & _ & _ & _ & Hctx). now apply Hctx.
  - constructor; [|constructor]. cbn [contextText]. now apply slice_to_length.
Qed.

(** X16.  When the sweep leaves a candidate, the first candidate returned is a raw
    candidate of highest score, whatever the cap. *)
Theorem select_text_best_first (text_lines : list TextLine) :
  raw_of text_lines <> [] ->
  exists (best : TextCropCandidate) (others : list TextCropCandidate),
    select_text text_lines = Ok (best :: others)
    /\ In best (raw_of text_lines)
    /\ Forall (fun c => score c <= score best) (raw_of text_lines).
Proof.
  intros Hraw.
  destruct (select_text_ok page_width page_height max_text_crops_per_page
              text_block_padding_px min_crop_edge_px min_text_block_height_px
              min_text_block_char_length min_text_lines_per_block
              max_text_lines_per_block max_context_length text_lines)
    as (selected & E & _).
  revert E. unfold select_text_crop_candidates. cbv zeta.
  pose proof (sort_stable_sorted score_gt score_gt_asym score_in_order_trans
                (raw_of text_lines)) as Hsorted.
  pose proof (sort_stable_perm score_gt (raw_of text_lines)) as Hperm.
  pose proof (sort_stable_inhabited score_gt _ Hraw) as Hne.
  destruct (sort_stable score_gt (raw_of text_lines)) as [|best rest];
    [congruence|].
  destruct (greedy_select _ _ _ (best :: rest) []) as [result|e] eqn:Eg;
    [|discriminate].
  cbn [bind].
  assert (Hhead : exists others, result = best :: others).
  { cbn [greedy_select overlaps_existing bind] in Eg. cbn [app] in Eg.
    destruct (max_text_crops_per_page <=? len [best])%Z.
    - injection Eg as <-. now exists [].
    - destruct (greedy_select_prefix _ _ _ _ _ _ Eg) as (taken & -> & _).
      now exists taken. }
  destruct Hhead as [others ->]. intros _.
  exists best, others. split; [reflexivity|].
  split; [apply (Permutation_in _ Hperm); now left|].
  apply (Permutation_Forall Hperm).
  inversion Hsorted as [|? ? _ Hall]; subst.
  constructor; [lra|].
  eapply Forall_impl; [|exact Hall]. intros c Hc. now apply score_in_order.
Qed.

End TextSelectorResults.

Lemma select_text_inside_page_witness :
  exists selected : list TextCropCandidate,
    select_text_crop_candidates 1000 1000 6 28 120 80 28 2 6 320
      [mkLine "Fig. 1" (mkRect 100 100 60 20)] = Ok selected
    /\ Forall
         (fun c =>
            inside_page (cand_bounds c) 1000 1000
            /\ 0 < rect_width (cand_bounds c)
            /\ 0 < rect_height (cand_bounds c))
         selected.
Proof.
  apply select_text_inside_page; vm_compute; reflexivity.
Defined.

Lemma select_text_context_length_witness :
  exists selected : list TextCropCandidate,
    select_text_crop_candidates 1000 1000 6 0 120 80 1 1 1 5
      [mkLine "alpha beta gamma" (mkRect 0 0 500 100);
       mkLine "delta" (mkRect 0 0 360 100)] = Ok selected
    /\ Forall (fun c => (str_len (contextText c) <= 5)%Z) selected.
Proof.
  apply select_text_context_length. lia.
Defined.

Lemma select_text_best_first_witness :
  exists (best : TextCropCandidate) (others : list TextCropCandidate),
    select_text_crop_candidates 1000 1000 6 0 120 80 1 1 1 320
      [mkLine "delta" (mkRect 0 0 360 100);
       mkLine "alpha beta gamma" (mkRect 0 0 500 100)] = Ok (best :: others)
    /\ In best
         (raw_text_candidates 1000 1000 0 120 80 1 1 1 320
            [mkLine "delta" (mkRect 0 0 360 100);
             mkLine "alpha beta gamma" (mkRect 0 0 500 100)])
    /\ Forall (fun c => score c <= score best)
         (raw_text_candidates 1000 1000 0 120 80 1 1 1 320
            [mkLine "delta" (mkRect 0 0 360 100);
             mkLine "alpha beta gamma" (mkRect 0 0 500 100)]).
Proof.
  apply select_text_best_first. vm_compute. discriminate.
Defined.

Section ImageSelectorResults.

Variable sqrt_value : Q -> Q.
Variables page_width page_height : Q.
Variables min_crop_edge_px min_crop_area_ratio max_crop_area_ratio : Q.
Variable max_crops_per_page : Z.

Local Abbreviation scan :=
  (scan_images page_width page_height min_crop_edge_px min_crop_area_ratio
     max_crop_area_ratio).

Local Abbreviation select_image :=
  (select_image_crop_boxes sqrt_value page_width page_height min_crop_edge_px
     min_crop_area_ratio max_crop_area_ratio max_crops_per_page).

Local Abbreviation image_fallback :=
  (image_fallback_bounds sqrt_value page_width page_height min_crop_edge_px
     max_crop_area_ratio).

Local Abbreviation page_area := (image_page_area page_width page_height).

Local Abbreviation passes_filters :=
  (fun b : Rect =>
     (exists r : Rect, b = clamp_bounds r page_width page_height)
     /\ min_crop_edge_px <= rect_width b
     /\ min_crop_edge_px <= rect_height b
     /\ page_area * min_crop_area_ratio <= rect_area b
     /\ rect_area b <= page_area * max_crop_area_ratio
     /\ 15 # 100 < rect_width b / Qmax 1 (rect_height b)
     /\ rect_width b / Qmax 1 (rect_height b) < 65 # 10).

Lemma keeps_image_true (clamped : Rect) :
  keeps_image page_width page_height min_crop_edge_px min_crop_area_ratio
    max_crop_area_ratio clamped = Ok true ->
  min_crop_edge_px <= rect_width clamped
  /\ min_crop_edge_px <= rect_height clamped
  /\ page_area * min_crop_area_ratio <= rect_area clamped
  /\ rect_area clamped <= page_area * max_crop_area_ratio
  /\ 15 # 100 < rect_width clamped / Qmax 1 (rect_height clamped)
  /\ rect_width clamped / Qmax 1 (rect_height clamped) < 65 # 10.
Proof.
  clear sqrt_value max_crops_per_page.
  unfold keeps_image. cbv zeta.
  destruct (Qltb (rect_width clamped) min_crop_edge_px
            || Qltb (rect_height clamped) min_crop_edge_px) eqn:E1;
    [discriminate|].
  destruct (Qltb (rect_width clamped * rect_height clamped)
              (page_area * min_crop_area_ratio)) eqn:E2; [discriminate|].
  destruct (Qltb (page_area * max_crop_area_ratio)
              (rect_width clamped * rect_height clamped)) eqn:E3;
    [discriminate|].
  rewrite py_div_ok.
  - cbn [bind].
    destruct (Qle_bool (rect_width clamped / Qmax 1 (rect_height clamped))
                (15 # 100)
              || Qle_bool (65 # 10)
                   (rect_width clamped / Qmax 1 (rect_height clamped))) eqn:E4;
      [discriminate|].
    intros _.
    rewrite orb_false_iff in E1, E4.
    rewrite !Qltb_ge in E1. rewrite Qltb_ge in E2, E3.
    rewrite !Qle_bool_gt in E4. unfold rect_area. tauto.
  - pose proof (floor_at_one (rect_height clamped)) as H1.
    intros E. rewrite E in H1. lra.
Qed.

Lemma scan_images_kept (raw_bounds normalized filtered : list Rect) :
  scan raw_bounds = Ok (normalized, filtered) ->
  normalized
  = map (fun bounds => clamp_bounds bounds page_width page_height) raw_bounds
  /\ Forall
       (fun b : Rect =>
          (exists r : Rect, b = clamp_bounds r page_width page_height)
          /\ min_crop_edge_px <= rect_width b
          /\ min_crop_edge_px <= rect_height b
          /\ image_page_area page_width page_height * min_crop_area_ratio
             <= rect_area b
          /\ rect_area b
             <= image_page_area page_width page_height * max_crop_area_ratio
          /\ 15 # 100 < rect_width b / Qmax 1 (rect_height b)
          /\ rect_width b / Qmax 1 (rect_height b) < 65 # 10)
       filtered.
Proof.
  clear sqrt_value max_crops_per_page.
  revert normalized filtered.
  induction raw_bounds as [|bounds rest IH]; intros normalized filtered;
    cbn [scan_images map].
  - intros E. injection E as <- <-. split; [reflexivity | constructor].
  - destruct (keeps_image _ _ _ _ _ _) as [keep|e] eqn:Ek; [|discriminate].
    cbn [bind].
    destruct (scan rest) as [[normalized' filtered']|e] eqn:Es; [|discriminate].
    cbn [bind fst snd]. intros E. injection E as <- <-.
    destruct (IH _ _ eq_refl) as [-> Hall].
    split; [reflexivity|].
    destruct keep; [|exact Hall].
    constructor; [|exact Hall].
    split; [eauto | now apply keeps_image_true].
Qed.

(** X17.  Every rectangle that the first loop keeps is a clamped raw rectangle at
    least [min_crop_edge_px] wide and high, with an area between the two
    ratios of the page area and a ratio of width to height strictly between
    0.15 and 6.5. *)
Theorem scan_images_filters (raw_bounds normalized filtered : list Rect) :
  scan raw_bounds = Ok (normalized, filtered) ->
  normalized
  = map (fun bounds => clamp_bounds bounds page_width page_height) raw_bounds
  /\ Forall
       (fun b : Rect =>
          (exists r : Rect, b = clamp_bounds r page_width page_height)
          /\ min_crop_edge_px <= rect_width b
          /\ min_crop_edge_px <= rect_height b
          /\ image_page_area page_width page_height * min_crop_area_ratio
             <= rect_area b
          /\ rect_area b
             <= image_page_area page_width page_height * max_crop_area_ratio
          /\ 15 # 100 < rect_width b / Qmax 1 (rect_height b)
          /\ rect_width b / Qmax 1 (rect_height b) < 65 # 10)
       filtered.
Proof. exact (scan_images_kept raw_bounds normalized filtered). Qed.

Lemma select_image_cases (raw_bounds selected : list Rect) :
  select_image raw_bounds = Ok selected ->
  exists filtered : list Rect,
    scan raw_bounds
    = Ok (map (fun bounds => clamp_bounds bounds page_width page_height)
            raw_bounds, filtered)
    /\ (incl selected filtered
        \/ exists (largest fallback : Rect),
             image_fallback largest = Ok fallback
             /\ page_area * min_crop_area_ratio
                <= rect_width fallback * rect_height fallback
             /\ selected = [fallback]).
Proof.
  unfold select_image_crop_boxes.
  destruct (scan_images_ok page_width page_height min_crop_edge_px
              min_crop_area_ratio max_crop_area_ratio raw_bounds)
    as [filtered Es].
  rewrite Es. cbn [bind fst snd]. exists filtered. split; [reflexivity|].
  revert H.
  destruct (greedy_select _ _ _ _ []) as [result|e] eqn:E; [|discriminate].
  cbn [bind].
  destruct (greedy_select_prefix _ _ _ _ _ _ E) as (taken & -> & Hin).
  cbn [app] in *.
  assert (Hf : incl taken filtered).
  { intros x Hx. apply (Permutation_in _ (sort_stable_perm area_gt _)).
    now apply Hin. }
  destruct taken as [|c taken']; [|intros H; injection H as <-; now left].
  destruct (sort_stable area_gt (map _ raw_bounds)) as [|largest others];
    [intros H; injection H as <-; left; apply incl_nil_l|].
  destruct (image_fallback largest) as [fallback|e] eqn:Ef; [|discriminate].
  cbn [bind]. destruct (Qle_bool _ _) eqn:Ea.
  - intros H. injection H as <-. right. exists largest, fallback.
    apply Qle_bool_iff in Ea. repeat split; assumption.
  - intros H. injection H as <-. left. apply incl_nil_l.
Qed.

Lemma image_page_area_positive : 0 < page_area.
Proof.
  pose proof (floor_at_one (page_width * page_height)).
  unfold image_page_area. lra.
Qed.

(** X18.  With a positive minimum edge and a positive minimum area ratio, every
    rectangle that [select_image_crop_boxes] returns lies inside the page
    with a positive width and height, the fallback rectangle included. *)
Theorem select_image_inside_page (raw_bounds : list Rect) :
  0 < min_crop_edge_px -> 0 < min_crop_area_ratio ->
  exists selected : list Rect,
    select_image raw_bounds = Ok selected
    /\ Forall
         (fun b =>
            inside_page b page_width page_height
            /\ 0 < rect_width b /\ 0 < rect_height b)
         selected.
Proof.
  intros Hedge Hratio.
  destruct (select_image_ok sqrt_value page_width page_height min_crop_edge_px
              min_crop_area_ratio max_crop_area_ratio max_crops_per_page
              raw_bounds) as (selected & E & _).
  exists selected. split; [exact E|].
  assert (Hclamp : forall r : Rect,
             0 < rect_width (clamp_bounds r page_width page_height) ->
             0 < rect_height (clamp_bounds r page_width page_height) ->
             inside_page (clamp_bounds r page_width page_height)
               page_width page_height).
  { intros r Hw Hh.
    destruct (clamp_bounds_positive_inside r page_width page_height Hw Hh)
      as (? & ? & ? & ?).
    unfold inside_page. repeat split; try assumption; lra. }
  destruct (select_image_cases raw_bounds selected E)
    as (filtered & Es & [Hin | (largest & fallback & Ef & Harea & ->)]).
  - destruct (scan_images_kept _ _ _ Es) as [_ Hall].
    rewrite Forall_forall in Hall.
    apply Forall_forall. intros b Hb.
    destruct (Hall b (Hin b Hb)) as ([r ->] & Hw & Hh & _).
    split; [apply Hclamp; lra | split; lra].
  - constructor; [|constructor].
    unfold image_fallback_bounds in Ef. cbv zeta in Ef.
    destruct (if Qltb _ _ then _ else _) as [shrunk|e]; [|discriminate].
    cbn [bind] in Ef. rewrite ensure_minimum_grown in Ef. injection Ef as <-.
    destruct (clamp_bounds_bounds
                (grown_bounds shrunk min_crop_edge_px min_crop_edge_px)
                page_width page_height) as (_ & _ & Hw0 & Hh0 & _).
    set (c := clamp_bounds _ page_width page_height) in *.
    pose proof image_page_area_positive as Hpa.
    assert (Hpos : 0 < rect_width c * rect_height c) by nra.
    destruct (product_pos _ _ Hw0 Hh0 Hpos) as [Hw Hh].
    split; [now apply Hclamp | split; assumption].
Qed.

(** X19.  When the filters leave a rectangle, the first rectangle returned is a
    filtered rectangle of largest area, whatever the cap. *)
Theorem select_image_largest_first (raw_bounds normalized filtered : list Rect) :
  scan raw_bounds = Ok (normalized, filtered) -> filtered <> [] ->
  exists (largest : Rect) (others : list Rect),
    select_image raw_bounds = Ok (largest :: others)
    /\ In largest filtered
    /\ Forall (fun b => rect_area b <= rect_area largest) filtered.
Proof.
  intros Es Hne. unfold select_image_crop_boxes.
  rewrite Es. cbn [bind fst snd].
  pose proof (sort_stable_sorted area_gt area_gt_asym area_in_order_trans
                filtered) as Hsorted.
  pose proof (sort_stable_perm area_gt filtered) as Hperm.
  pose proof (sort_stable_inhabited area_gt _ Hne) as Hne'.
  destruct (sort_stable area_gt filtered) as [|largest rest]; [congruence|].
  destruct (greedy_select_ok (fun bounds : Rect => bounds) (85 # 100)
              max_crops_per_page (largest :: rest) []
              (FOP_nil _) (or_intror eq_refl)) as (result & Eg & _).
  rewrite Eg. cbn [bind].
  assert (Hhead : exists others, result = largest :: others).
  { cbn [greedy_select overlaps_existing bind] in Eg. cbn [app] in Eg.
    destruct (max_crops_per_page <=? len [largest])%Z.
    - injection Eg as <-. now exists [].
    - destruct (greedy_select_prefix _ _ _ _ _ _ Eg) as (taken & -> & _).
      now exists taken. }
  destruct Hhead as [others ->].
  exists largest, others. split; [reflexivity|].
  split; [apply (Permutation_in _ Hperm); now left|].
  apply (Permutation_Forall Hperm).
  inversion Hsorted as [|? ? _ Hall]; subst.
  constructor; [lra|].
  eapply Forall_impl; [|exact Hall]. intros c Hc. now apply area_in_order.
Qed.

End ImageSelectorResults.

Lemma scan_images_filters_witness :
  Forall
    (fun b : Rect =>
       (exists r : Rect, b = clamp_bounds r 1000 1000)
       /\ 120 <= rect_width b /\ 120 <= rect_height b
       /\ image_page_area 1000 1000 * (8 # 1000) <= rect_area b
       /\ rect_area b <= image_page_area 1000 1000 * (72 # 100)
       /\ 15 # 100 < rect_width b / Qmax 1 (rect_height b)
       /\ rect_width b / Qmax 1 (rect_height b) < 65 # 10)
    [mkRect 0 0 400 200].
Proof.
  refine (proj2 (scan_images_filters 1000 1000 120 (8 # 1000) (72 # 100)
                   [mkRect 0 0 400 200; mkRect 0 0 800 10]
                   [mkRect 0 0 400 200; mkRect 0 0 800 10]
                   [mkRect 0 0 400 200] _)).
  vm_compute. reflexivity.
Defined.

Lemma select_image_inside_page_witness :
  exists selected : list Rect,
    select_image_crop_boxes sqrt_scaled 1000 1000 120 (8 # 1000) (72 # 100) 4
      [mkRect 0 0 1000 1000] = Ok selected
    /\ Forall
         (fun b =>
            inside_page b 1000 1000 /\ 0 < rect_width b /\ 0 < rect_height b)
         selected.
Proof.
  apply select_image_inside_page; vm_compute; reflexivity.
Defined.

Lemma select_image_largest_first_witness :
  exists (largest : Rect) (others : list Rect),
    select_image_crop_boxes sqrt_scaled 1000 1000 120 (8 # 1000) (72 # 100) 4
      [mkRect 0 0 340 200; mkRect 500 500 400 200] = Ok (largest :: others)
    /\ In largest [mkRect 0 0 340 200; mkRect 500 500 400 200]
    /\ Forall (fun b => rect_area b <= rect_area largest)
         [mkRect 0 0 340 200; mkRect 500 500 400 200].
Proof.
  eapply select_image_largest_first; [vm_compute; reflexivity | discriminate].
Defined.

(** ** Characters and lines *)

(** X20.  Every item of [extract_char_items] has a non-empty text and a rectangle
    of positive width and height inside the image, and no more items are
    returned than the page has characters. *)
Theorem extract_char_items_valid (text_page : list PdfChar)
    (page_height_points scale_x scale_y image_w image_h : Q) :
  Forall
    (fun item =>
       item_text item <> EmptyString
       /\ 0 < rect_width (item_box item) /\ 0 < rect_height (item_box item)
       /\ inside_page (item_box item) image_w image_h)
    (extract_char_items text_page page_height_points scale_x scale_y
       image_w image_h)
  /\ (List.length
        (extract_char_items text_page page_height_points scale_x scale_y
           image_w image_h) <= List.length text_page)%nat.
Proof.
  induction text_page as [|char rest [IH1 IH2]]; cbn [extract_char_items].
  - split; [constructor | apply Nat.le_refl].
  - cbv zeta. destruct (char_text char) as [|c text] eqn:Et.
    + split; [exact IH1 | cbn; lia].
    + destruct (Qle_bool _ 0 || Qle_bool _ 0) eqn:E.
      * split; [exact IH1 | cbn; lia].
      * split; [|cbn; lia]. constructor; [|exact IH1].
        cbn [item_text item_box].
        rewrite orb_false_iff, !Qle_bool_gt in E. destruct E as [Hw Hh].
        split; [discriminate|]. split; [exact Hw|]. split; [exact Hh|].
        unfold convert_pdf_bounds_to_pixels in *. cbv zeta in *.
        destruct (clamp_bounds_positive_inside _ image_w image_h Hw Hh)
          as (? & ? & ? & ?).
        unfold inside_page. repeat split; try assumption; lra.
Qed.

(** X21.  A box that lies inside the page in points, with non-negative scales that
    map the page into the image, is converted to a pixel rectangle inside the
    image that covers the scaled box, the vertical axis being flipped. *)
Theorem convert_pdf_bounds_to_pixels_covers
    (left bottom right top page_height_points scale_x scale_y image_w image_h : Q) :
  0 <= scale_x -> 0 <= scale_y ->
  0 <= left -> left <= right -> bottom <= top -> top <= page_height_points ->
  right * scale_x <= image_w ->
  (page_height_points - bottom) * scale_y <= image_h ->
  let r :=
    convert_pdf_bounds_to_pixels left bottom right top page_height_points
      scale_x scale_y image_w image_h in
  inside_page r image_w image_h
  /\ covers r
       (mkRect (left * scale_x) ((page_height_points - top) * scale_y)
          ((right - left) * scale_x) ((top - bottom) * scale_y)).
Proof.
  intros Hsx Hsy Hl Hlr Hbt Htp Hrw Hbh r.
  assert (H1 : 0 <= left * scale_x) by nra.
  assert (H2 : 0 <= (page_height_points - top) * scale_y) by nra.
  assert (H3 : 0 <= (right - left) * scale_x) by nra.
  assert (H4 : 0 <= (top - bottom) * scale_y) by nra.
  assert (H5 : left * scale_x + (right - left) * scale_x <= image_w) by nra.
  assert (H6 : (page_height_points - top) * scale_y + (top - bottom) * scale_y
               <= image_h) by nra.
  destruct (clamp_covers_inside
              (mkRect (left * scale_x) ((page_height_points - top) * scale_y)
                 ((right - left) * scale_x) ((top - bottom) * scale_y))
              image_w image_h H1 H2 H3 H4 H5 H6)
    as (C1 & C2 & C3 & C4 & C5 & C6).
  destruct (clamp_bounds_bounds
              (mkRect (left * scale_x) ((page_height_points - top) * scale_y)
                 ((right - left) * scale_x) ((top - bottom) * scale_y))
              image_w image_h) as (E1 & E2 & E3 & E4 & _).
  cbn [rect_x rect_y rect_width rect_height] in C1, C2, C3, C4, C5, C6.
  unfold inside_page, covers, r, convert_pdf_bounds_to_pixels.
  cbn [rect_x rect_y rect_width rect_height]. cbv zeta.
  repeat split; assumption.
Qed.

Lemma convert_pdf_bounds_to_pixels_covers_witness :
  let r := convert_pdf_bounds_to_pixels 72 700 80 712 792 (5 # 2) (5 # 2)
             1530 1980 in
  inside_page r 1530 1980
  /\ covers r (mkRect (72 * (5 # 2)) ((792 - 712) * (5 # 2))
                 ((80 - 72) * (5 # 2)) ((712 - 700) * (5 # 2))).
Proof.
  apply convert_pdf_bounds_to_pixels_covers; vm_compute; discriminate.
Defined.

Lemma find_line_index (lines : list LineAcc) (index : nat)
    (center_y line_gap : Q) (matched : option (nat * Q)) (i : nat) (d : Q) :
  find_line lines index center_y line_gap matched = Some (i, d) ->
  matched = Some (i, d) \/ (index <= i < index + List.length lines)%nat.
Proof.
  revert index matched.
  induction lines as [|line rest IH]; intros index matched; cbn [find_line].
  - intros ->. now left.
  - cbv zeta. intros E. destruct (IH _ _ E) as [Hm|Hi].
    + destruct (_ && _).
      * injection Hm as <- _. right. cbn. lia.
      * now left.
    + right. cbn. lia.
Qed.

Lemma add_item_items (line line' : LineAcc) (item : CharItem) :
  add_item line item = Ok line' -> acc_items line' = acc_items line ++ [item].
Proof.
  unfold add_item. cbv zeta.
  destruct (map_res item_center_y _) as [centers|e]; [|discriminate].
  cbn [bind]. destruct (py_div _ _) as [mean|e]; [|discriminate].
  cbn [bind]. intros E. now injection E as <-.
Qed.

Lemma update_line_items (lines lines' : list LineAcc) (index : nat)
    (item : CharItem) :
  update_line lines index item = Ok lines' -> (index < List.length lines)%nat ->
  List.length lines' = List.length lines
  /\ Permutation (List.concat (map acc_items lines'))
       (item :: List.concat (map acc_items lines)).
Proof.
  revert lines' index. induction lines as [|line rest IH]; intros lines' index.
  - cbn. lia.
  - destruct index as [|i]; cbn [update_line].
    + destruct (add_item line item) as [line'|e] eqn:Ea; [|discriminate].
      cbn [bind]. intros E _. injection E as <-.
      split; [reflexivity|]. cbn [map List.concat].
      rewrite (add_item_items _ _ _ Ea), <- app_assoc.
      apply Permutation_sym. apply Permutation_middle.
    + destruct (update_line rest i item) as [rest'|e] eqn:Eu; [|discriminate].
      cbn [bind]. intros E Hi. injection E as <-.
      destruct (IH rest' i Eu) as [Hl Hp]; [cbn in Hi; lia|].
      split; [cbn; now rewrite Hl|]. cbn [map List.concat].
      apply (Permutation_trans (Permutation_app_head _ Hp)).
      apply Permutation_sym. apply Permutation_middle.
Qed.

Lemma cluster_items (sorted_items : list CharItem) (line_gap : Q)
    (lines lines' : list LineAcc) :
  cluster sorted_items line_gap lines = Ok lines' ->
  Permutation (List.concat (map acc_items lines'))
    (List.concat (map acc_items lines) ++ sorted_items)
  /\ (List.length lines' <= List.length lines + List.length sorted_items)%nat.
Proof.
  revert lines. induction sorted_items as [|item rest IH]; intros lines.
  - cbn. intros E. injection E as <-. rewrite app_nil_r. split; [reflexivity|lia].
  - cbn [cluster]. rewrite item_center_y_ok. cbn [bind].
    destruct (find_line lines 0 _ line_gap None) as [[index delta]|] eqn:Ef.
    + destruct (find_line_index _ _ _ _ _ _ _ Ef) as [Hm|Hi]; [discriminate|].
      destruct (update_line lines index item) as [lines1|e] eqn:Eu;
        [|discriminate].
      cbn [bind]. intros E.
      destruct (update_line_items _ _ _ _ Eu) as [Hl Hp]; [lia|].
      destruct (IH _ E) as [Hp' Hl']. split; [|cbn; lia].
      apply (Permutation_trans Hp').
      apply (Permutation_trans (Permutation_app_tail _ Hp)).
      cbn. apply Permutation_middle.
    + intros E. destruct (IH _ E) as [Hp' Hl']. split.
      * apply (Permutation_trans Hp').
        rewrite map_app, concat_app. cbn. rewrite <- app_assoc. reflexivity.
      * rewrite length_app in Hl'. cbn in *. lia.
Qed.

Lemma cluster_partition_facts (sorted_items : list CharItem) (line_gap : Q) :
  exists lines : list LineAcc,
    cluster sorted_items line_gap [] = Ok lines
    /\ Permutation (List.concat (map acc_items lines)) sorted_items
    /\ Forall (fun line => acc_items line <> []) lines.
Proof.
  destruct (cluster_ok sorted_items line_gap [] (Forall_nil _))
    as [lines [E Hall]].
  exists lines. split; [exact E|]. split; [|exact Hall].
  now destruct (cluster_items _ _ _ _ E).
Qed.

(** X22.  The clustering puts every character in exactly one line and leaves no
    line empty. *)
Theorem cluster_partition (sorted_items : list CharItem) (line_gap : Q) :
  exists lines : list LineAcc,
    cluster sorted_items line_gap [] = Ok lines
    /\ Permutation (List.concat (map acc_items lines)) sorted_items
    /\ Forall (fun line => acc_items line <> []) lines.
Proof. exact (cluster_partition_facts sorted_items line_gap). Qed.

Lemma normalize_lines_length (lines : list LineAcc) (normalized : list TextLine) :
  normalize_lines lines = Ok normalized ->
  (List.length normalized <= List.length lines)%nat.
Proof.
  revert normalized. induction lines as [|line rest IH]; intros normalized.
  - cbn. intros E. injection E as <-. cbn. lia.
  - cbn [normalize_lines].
    destruct (join_items _ None None []) as [extent pieces].
    destruct (normalize_whitespace _).
    + intros E. specialize (IH _ E). cbn. lia.
    + destruct (extent_rect extent) as [box|e]; [|discriminate]. cbn [bind].
      destruct (normalize_lines rest) as [later|e]; [|discriminate]. cbn [bind].
      intros E. injection E as <-. specialize (IH _ eq_refl). cbn. lia.
Qed.

(** X23.  [build_text_lines] returns at most as many lines as it is given
    characters, and no line at all for no character. *)
Theorem build_text_lines_count (char_items : list CharItem) :
  exists lines : list TextLine,
    build_text_lines char_items = Ok lines
    /\ (List.length lines <= List.length char_items)%nat.
Proof.
  destruct (build_text_lines_ok char_items) as [lines [E _]].
  exists lines. split; [exact E|].
  revert E. unfold build_text_lines.
  destruct char_items as [|item rest]; [intros E; injection E as <-; cbn; lia|].
  cbv zeta.
  destruct (cluster _ _ []) as [accs|e] eqn:Ec; [|discriminate]. cbn [bind].
  intros En. apply normalize_lines_length in En.
  destruct (cluster_items _ _ _ _ Ec) as [_ Hl].
  rewrite (Permutation_length (sort_stable_perm item_key_lt (item :: rest))) in Hl.
  cbn in *. lia.
Qed.

Lemma visible_app (s t : string) :
  visible (s ++ t)%string = (visible s ++ visible t)%string.
Proof.
  induction s as [|c rest IH]; cbn; [reflexivity|].
  destruct (isspace c); cbn; now rewrite IH.
Qed.

Lemma visible_concat (pieces : list string) :
  Forall (fun piece => visible piece = EmptyString) pieces ->
  visible (String.concat "" pieces) = EmptyString.
Proof.
  induction 1 as [|piece rest Hp Hrest IH]; [reflexivity|].
  cbn [String.concat]. destruct rest as [|next rest']; [exact Hp|].
  rewrite !visible_app, Hp, IH. reflexivity.
Qed.

Lemma join_items_blank (items : list CharItem) (previous : option CharItem)
    (extent : option Extent) (pieces : list string) :
  Forall (fun item => visible (item_text item) = EmptyString) items ->
  Forall (fun piece => visible piece = EmptyString) pieces ->
  Forall (fun piece => visible piece = EmptyString)
    (snd (join_items items previous extent pieces)).
Proof.
  revert previous extent pieces.
  induction items as [|item rest IH]; intros previous extent pieces Hi Hp.
  - exact Hp.
  - inversion Hi as [|? ? Hitem Hrest]; subst. cbn [join_items]. cbv zeta.
    apply IH; [exact Hrest|].
    apply Forall_app. split; [|now constructor].
    destruct previous as [p|]; [|exact Hp].
    destruct (_ && _); [|exact Hp].
    apply Forall_app. split; [exact Hp | now constructor].
Qed.

Lemma normalize_lines_blank (lines : list LineAcc) :
  Forall
    (fun line =>
       Forall (fun item => visible (item_text item) = EmptyString)
         (acc_items line))
    lines ->
  normalize_lines lines = Ok [].
Proof.
  induction 1 as [|line rest Hline Hrest IH]; [reflexivity|].
  cbn [normalize_lines].
  assert (Hsorted : Forall (fun item => visible (item_text item) = EmptyString)
                      (sort_stable item_x_lt (acc_items line))).
  { apply (Permutation_Forall
             (Permutation_sym (sort_stable_perm item_x_lt (acc_items line)))).
    exact Hline. }
  pose proof (join_items_blank _ None None [] Hsorted (Forall_nil _)) as Hp.
  destruct (join_items _ None None []) as [extent pieces]. cbn [snd] in Hp.
  apply visible_concat in Hp.
  apply (proj2 (proj2 (normalize_whitespace_keeps _))) in Hp.
  rewrite Hp. exact IH.
Qed.

(** X24.  Characters that are all whitespace give no line. *)
Theorem build_text_lines_blank (char_items : list CharItem) :
  Forall (fun item => visible (item_text item) = EmptyString) char_items ->
  build_text_lines char_items = Ok [].
Proof.
  intros Hblank. unfold build_text_lines.
  destruct char_items as [|item rest]; [reflexivity|]. cbv zeta.
  destruct (cluster_partition_facts (sort_stable item_key_lt (item :: rest))
              (line_gap_of
                 (median_height (sort_stable item_key_lt (item :: rest)))))
    as (lines & E & Hperm & _).
  rewrite E. cbn [bind]. apply normalize_lines_blank.
  assert (Hall : Forall (fun it => visible (item_text it) = EmptyString)
                   (List.concat (map acc_items lines))).
  { apply (Permutation_Forall (Permutation_sym Hperm)).
    apply (Permutation_Forall
             (Permutation_sym (sort_stable_perm item_key_lt (item :: rest)))).
    exact Hblank. }
  clear - Hall. induction lines as [|line lines' IH]; [constructor|].
  cbn in Hall. apply Forall_app in Hall. destruct Hall as [H1 H2].
  constructor; [exact H1 | now apply IH].
Qed.

Lemma build_text_lines_blank_witness :
  build_text_lines
    [mkItem " " (mkRect 0 0 10 10); mkItem "" (mkRect 20 40 10 10)] = Ok [].
Proof.
  apply build_text_lines_blank. repeat constructor.
Defined.

Lemma map_res_centers (items : list CharItem) :
  map_res item_center_y items = Ok (map center_of items).
Proof.
  induction items as [|item rest IH]; cbn [map_res map]; [reflexivity|].
  rewrite item_center_y_ok. cbn [bind]. rewrite IH. reflexivity.
Qed.

Lemma fold_sum_constant (c : Q) (values : list Q) (start : Q) :
  Forall (fun v => v == c) values ->
  fold_left Qplus values start == start + inject_Z (len values) * c.
Proof.
  intros Hall. revert start.
  induction Hall as [|v rest Hv Hrest IH]; intros start; cbn [fold_left].
  - unfold len. cbn. ring.
  - assert (Hv' : v == c) by exact Hv.
    apply (Qeq_trans _ _ _ (IH (start + v))).
    unfold len. cbn [List.length].
    rewrite Nat2Z.inj_succ, <- Z.add_1_r, inject_Z_plus.
    setoid_replace v with c by exact Hv'. ring.
Qed.

Lemma add_item_row (c : Q) (line : LineAcc) (item : CharItem) :
  Forall (fun it => center_of it == c) (acc_items line) ->
  center_of item == c ->
  exists line' : LineAcc,
    add_item line item = Ok line'
    /\ acc_center_y line' == c
    /\ Forall (fun it => center_of it == c) (acc_items line').
Proof.
  intros Hall Hitem. unfold add_item. cbv zeta.
  rewrite map_res_centers. cbn [bind].
  assert (Hitems : Forall (fun it => center_of it == c) (acc_items line ++ [item]))
    by (apply Forall_app; split; [exact Hall | now constructor]).
  assert (Hcenters : Forall (fun v => v == c)
                       (map center_of (acc_items line ++ [item])))
    by (apply Forall_map; exact Hitems).
  assert (Hlen : (0 < len (map center_of (acc_items line ++ [item])))%Z).
  { unfold len. rewrite length_map, length_app. cbn. lia. }
  assert (Hq : 0 < inject_Z (len (map center_of (acc_items line ++ [item])))).
  { change 0 with (inject_Z 0). now rewrite <- Zlt_Qlt. }
  rewrite py_div_ok by (intros E; rewrite E in Hq; lra).
  cbn [bind]. eexists. split; [reflexivity|]. cbn [acc_center_y acc_items].
  split; [|exact Hitems].
  unfold py_sum. rewrite (fold_sum_constant c _ 0 Hcenters).
  field. intros E. rewrite E in Hq. lra.
Qed.

Lemma cluster_row (c line_gap : Q) (sorted_items : list CharItem)
    (lines : list LineAcc) :
  0 <= line_gap ->
  Forall (fun item => center_of item == c) sorted_items ->
  one_row c lines ->
  exists lines' : list LineAcc,
    cluster sorted_items line_gap lines = Ok lines' /\ one_row c lines'.
Proof.
  intros Hgap Hall. revert lines.
  induction Hall as [|item rest Hitem Hrest IH]; intros lines Hrow.
  - cbn. eauto.
  - cbn [cluster]. rewrite item_center_y_ok. cbn [bind].
    fold (center_of item).
    destruct Hrow as [-> | (line & -> & Hc & Hitems)].
    + cbn [find_line app]. apply IH. right.
      exists (mkAcc [item] (center_of item)). cbn.
      split; [reflexivity|]. split; [exact Hitem | now constructor].
    + cbn [find_line]. cbv zeta.
      assert (Hd : Qle_bool (Qabs (acc_center_y line - center_of item)) line_gap
                   = true).
      { apply Qle_bool_iff.
        assert (E : acc_center_y line - center_of item == 0)
          by (rewrite Hc, Hitem; ring).
        rewrite E. exact Hgap. }
      rewrite Hd. cbn [andb update_line].
      destruct (add_item_row c line item Hitems Hitem) as (line' & E & Hc' & Hi').
      rewrite E. cbn [bind]. apply IH. right. now exists line'.
Qed.

Lemma line_gap_of_bounds (median : Q) : 6 <= line_gap_of median <= 20.
Proof. unfold line_gap_of. split; split_minmax; lra. Qed.

(** X25.  Characters whose vertical centres coincide are put in one line:
    [build_text_lines] returns at most one line for them. *)
Theorem build_text_lines_single_row (c : Q) (char_items : list CharItem) :
  Forall
    (fun item => rect_y (item_box item) + rect_height (item_box item) / 2 == c)
    char_items ->
  exists lines : list TextLine,
    build_text_lines char_items = Ok lines /\ (List.length lines <= 1)%nat.
Proof.
  intros Hall. unfold build_text_lines.
  destruct char_items as [|item rest]; [exists []; split; [reflexivity | cbn; lia]|].
  cbv zeta.
  set (sorted := sort_stable item_key_lt (item :: rest)).
  assert (Hsorted : Forall (fun it => center_of it == c) sorted).
  { apply (Permutation_Forall
             (Permutation_sym (sort_stable_perm item_key_lt (item :: rest)))).
    exact Hall. }
  destruct (line_gap_of_bounds (median_height sorted)) as [Hgap _].
  destruct (cluster_row c (line_gap_of (median_height sorted)) sorted []
              ltac:(lra) Hsorted (or_introl eq_refl)) as (lines & E & Hrow).
  rewrite E. cbn [bind].
  assert (Hinh : lines_inhabited lines).
  { destruct (cluster_ok sorted (line_gap_of (median_height sorted)) []
                (Forall_nil _)) as (lines0 & E0 & Hi).
    congruence. }
  destruct (normalize_lines_ok lines Hinh) as (normalized & En & _).
  exists normalized. split; [exact En|].
  apply normalize_lines_length in En.
  destruct Hrow as [-> | (line & -> & _)]; cbn in En; lia.
Qed.

Lemma build_text_lines_single_row_witness :
  exists lines : list TextLine,
    build_text_lines
      [mkItem "b" (mkRect 12 100 10 20); mkItem "a" (mkRect 0 105 10 10)]
    = Ok lines
    /\ (List.length lines <= 1)%nat.
Proof.
  apply (build_text_lines_single_row 110).
  repeat constructor.
Defined.

(** ** Shrinking *)

Lemma sqrt_scaled_unit (v : Q) :
  0 <= v -> 0 <= sqrt_scaled v /\ (v <= 1 -> sqrt_scaled v <= 1).
Proof.
  intros Hv. unfold sqrt_scaled.
  set (n := Qfloor (v * inject_Z (2 ^ 40))).
  pose proof (Z.sqrt_nonneg n) as Hn. split.
  - unfold Qle. cbn [Qnum Qden]. lia.
  - intros H1.
    assert (Hf : (n <= 2 ^ 40)%Z).
    { unfold n. rewrite <- (Qfloor_Z (2 ^ 40)). apply Qfloor_resp_le.
      assert (0 < inject_Z (2 ^ 40)) by reflexivity.
      assert (E : inject_Z (2 ^ 40) == 1 * inject_Z (2 ^ 40)) by ring.
      rewrite E at 2. apply Qmult_le_compat_r; lra. }
    apply Z.sqrt_le_mono in Hf.
    change (Z.sqrt (2 ^ 40)) with (Z.pos (2 ^ 20)) in Hf.
    unfold Qle. cbn [Qnum Qden]. lia.
Qed.

(** X26.  For a square root with values in [[0, 1]] on [[0, 1]], shrinking a
    rectangle that lies inside the page gives a rectangle inside the page
    that still contains the centre of the original. *)
Theorem shrink_bounds_keeps_center (sqrt_value : Q -> Q) (bounds : Rect)
    (W H ratio : Q) :
  (forall v : Q, 0 <= v -> v <= 1 -> 0 <= sqrt_value v <= 1) ->
  inside_page bounds W H ->
  exists r : Rect,
    shrink_bounds_to_target_area_ratio sqrt_value bounds W H ratio = Ok r
    /\ inside_page r W H
    /\ rect_x r <= rect_x bounds + rect_width bounds / 2
    /\ rect_x bounds + rect_width bounds / 2 <= rect_x r + rect_width r
    /\ rect_y r <= rect_y bounds + rect_height bounds / 2
    /\ rect_y bounds + rect_height bounds / 2 <= rect_y r + rect_height r.
Proof.
  intros Hsqrt (Hx & Hy & Hw & Hh & HW & HH).
  assert (Ehw : 2 * (rect_width bounds / 2) == rect_width bounds) by field.
  assert (Ehh : 2 * (rect_height bounds / 2) == rect_height bounds) by field.
  unfold shrink_bounds_to_target_area_ratio. cbv zeta.
  destruct (Qle_bool _ _) eqn:Ecmp.
  - eexists. split; [reflexivity|].
    destruct (clamp_covers_inside bounds W H Hx Hy Hw Hh HW HH)
      as (C1 & C2 & C3 & C4 & C5 & C6).
    destruct (clamp_bounds_bounds bounds W H) as (E1 & E2 & E3 & E4 & _).
    set (hw := rect_width bounds / 2) in *.
    set (hh := rect_height bounds / 2) in *.
    unfold inside_page. repeat split; try assumption; lra.
  - apply Qle_bool_gt in Ecmp.
    pose proof (floor_at_one (rect_width bounds * rect_height bounds)) as Hc.
    pose proof (floor_at_one (shrink_page_area W H * ratio)) as Ht.
    fold (shrink_current_area bounds) in Hc.
    fold (shrink_target_area W H ratio) in Ht.
    rewrite py_div_ok by (intros E; rewrite E in Hc; lra).
    cbn [bind]. unfold math_sqrt.
    set (q := shrink_target_area W H ratio / shrink_current_area bounds).
    assert (Hq0 : 0 <= q) by (apply Qle_shift_div_l; lra).
    assert (Hq1 : q <= 1) by (apply Qle_shift_div_r; lra).
    rewrite (proj2 (Qltb_ge q 0) Hq0). cbn [bind].
    destruct (Hsqrt q Hq0 Hq1) as [Hs0 Hs1].
    set (s := sqrt_value q) in *.
    rewrite !py_div_2. cbn [bind].
    eexists. split; [reflexivity|].
    assert (Etw : 2 * (rect_width bounds * s / 2) == rect_width bounds * s)
      by field.
    assert (Eth : 2 * (rect_height bounds * s / 2) == rect_height bounds * s)
      by field.
    assert (Hws : 0 <= rect_width bounds * s <= rect_width bounds) by nra.
    assert (Hhs : 0 <= rect_height bounds * s <= rect_height bounds) by nra.
    set (tw := rect_width bounds * s) in *.
    set (th := rect_height bounds * s) in *.
    set (hw := rect_width bounds / 2) in *.
    set (hh := rect_height bounds / 2) in *.
    set (htw := tw / 2) in *. set (hth := th / 2) in *.
    assert (G1 : 0 <= rect_x bounds + hw - htw) by lra.
    assert (G2 : 0 <= rect_y bounds + hh - hth) by lra.
    assert (G3 : rect_x bounds + hw - htw + tw <= W) by lra.
    assert (G4 : rect_y bounds + hh - hth + th <= H) by lra.
    destruct (clamp_covers_inside
                (mkRect (rect_x bounds + hw - htw) (rect_y bounds + hh - hth)
                   tw th) W H G1 G2 (proj1 Hws) (proj1 Hhs) G3 G4)
      as (C1 & C2 & C3 & C4 & C5 & C6).
    destruct (clamp_bounds_bounds
                (mkRect (rect_x bounds + hw - htw) (rect_y bounds + hh - hth)
                   tw th) W H) as (E1 & E2 & E3 & E4 & _).
    cbn [rect_x rect_y rect_width rect_height] in C1, C2, C3, C4, C5, C6.
    unfold inside_page. repeat split; try assumption; lra.
Qed.

Lemma shrink_bounds_keeps_center_witness :
  exists r : Rect,
    shrink_bounds_to_target_area_ratio sqrt_scaled (mkRect 0 0 1000 1000)
      1000 1000 IMAGE_CROP_FALLBACK_AREA_RATIO = Ok r
    /\ inside_page r 1000 1000
    /\ rect_x r <= 0 + 1000 / 2 /\ 0 + 1000 / 2 <= rect_x r + rect_width r
    /\ rect_y r <= 0 + 1000 / 2 /\ 0 + 1000 / 2 <= rect_y r + rect_height r.
Proof.
  apply (shrink_bounds_keeps_center sqrt_scaled (mkRect 0 0 1000 1000)).
  - intros v H0 H1. destruct (sqrt_scaled_unit v H0). auto.
  - repeat split; vm_compute; discriminate.
Defined.

(** ** The fallbacks *)

Lemma ensure_minimum_reaches_size (bounds : Rect) (min_width min_height W H : Q) :
  inside_page (grown_bounds bounds min_width min_height) W H ->
  exists r : Rect,
    ensure_minimum_bounds_size (Some bounds) min_width min_height W H = Ok r
    /\ min_width <= rect_width r /\ min_height <= rect_height r
    /\ 0 <= rect_width r /\ 0 <= rect_height r.
Proof.
  intros (Hx & Hy & Hw & Hh & HW & HH).
  rewrite ensure_minimum_grown. eexists. split; [reflexivity|].
  destruct (grown_bounds_covers bounds min_width min_height)
    as (_ & _ & Gmw & _ & Gmh).
  set (g := grown_bounds bounds min_width min_height) in *.
  destruct (clamp_covers_inside g W H Hx Hy Hw Hh HW HH)
    as (C1 & C2 & _ & C3 & C4 & _).
  destruct (clamp_bounds_bounds g W H) as (_ & _ & E3 & E4 & _).
  repeat split; lra.
Qed.

Lemma text_fallback_min_height_positive (min_text_block_height_px : Q) :
  56 <= text_fallback_min_height min_text_block_height_px.
Proof. unfold text_fallback_min_height. split_minmax; lra. Qed.

(** C3, as the code has it.  A non-empty list of text lines gives at least
    one candidate when the thresholds admit the fallback sizing (the minimum
    size of the fallback has an area of at least 0.002 of the page area) and
    the fallback rectangle, grown about its centre to that minimum size, fits
    inside the page; a non-empty list of raw image rectangles gives at least
    one rectangle under the same two conditions on the image fallback
    ([min_crop_edge_px] squared reaches [min_crop_area_ratio] of the page
    area).  Near a page edge the last [clamp_bounds] cuts the grown rectangle
    and the fallback may be refused. *)
Theorem selectors_inhabited :
  (forall (page_width page_height : Q) (max_text_crops_per_page : Z)
          (text_block_padding_px min_crop_edge_px min_text_block_height_px : Q)
          (min_text_block_char_length min_text_lines_per_block : Z)
          (max_text_lines_per_block max_context_length : Z)
          (first : TextLine) (rest : list TextLine),
      inside_page
        (grown_bounds
           (text_fallback_padded page_width page_height text_block_padding_px
              (longest_line first rest))
           min_crop_edge_px (text_fallback_min_height min_text_block_height_px))
        page_width page_height ->
      text_page_area page_width page_height * (2 # 1000)
      <= min_crop_edge_px * text_fallback_min_height min_text_block_height_px ->
      exists selected : list TextCropCandidate,
        select_text_crop_candidates page_width page_height
          max_text_crops_per_page text_block_padding_px min_crop_edge_px
          min_text_block_height_px min_text_block_char_length
          min_text_lines_per_block max_text_lines_per_block max_context_length
          (first :: rest) = Ok selected
        /\ selected <> [])
  /\ (forall (sqrt_value : Q -> Q) (page_width page_height : Q)
             (min_crop_edge_px min_crop_area_ratio max_crop_area_ratio : Q)
             (max_crops_per_page : Z)
             (first : Rect) (rest others : list Rect) (largest shrunk : Rect),
        sort_stable area_gt
          (map (fun bounds => clamp_bounds bounds page_width page_height)
             (first :: rest)) = largest :: others ->
        (if Qltb (image_page_area page_width page_height * max_crop_area_ratio)
              (rect_width largest * rect_height largest)
         then shrink_bounds_to_target_area_ratio sqrt_value largest
                page_width page_height IMAGE_CROP_FALLBACK_AREA_RATIO
         else Ok largest) = Ok shrunk ->
        inside_page (grown_bounds shrunk min_crop_edge_px min_crop_edge_px)
          page_width page_height ->
        0 <= min_crop_edge_px ->
        image_page_area page_width page_height * min_crop_area_ratio
        <= min_crop_edge_px * min_crop_edge_px ->
        exists selected : list Rect,
          select_image_crop_boxes sqrt_value page_width page_height
            min_crop_edge_px min_crop_area_ratio max_crop_area_ratio
            max_crops_per_page (first :: rest) = Ok selected
          /\ selected <> []).
Proof.
  split.
  - intros until rest. intros Hroom Hadmit.
    destruct (ensure_minimum_reaches_size _ _ _ _ _ Hroom)
      as (r & Er & Hw & Hh & Hw0 & Hh0).
    pose proof (text_fallback_min_height_positive min_text_block_height_px)
      as Hmin.
    apply (select_text_inhabited _ _ _ _ _ _ _ _ _ _ first rest r);
      [exact Er|].
    set (mh := text_fallback_min_height min_text_block_height_px) in *.
    destruct (Qlt_le_dec min_crop_edge_px 0); nra.
  - intros until shrunk. intros Hsort Hshrunk Hroom Hedge Hadmit.
    destruct (ensure_minimum_reaches_size _ _ _ _ _ Hroom)
      as (r & Er & Hw & Hh & Hw0 & Hh0).
    destruct (scan_images_ok page_width page_height min_crop_edge_px
                min_crop_area_ratio max_crop_area_ratio (first :: rest))
      as [filtered Es].
    apply (select_image_inhabited sqrt_value _ _ _ _ _ _ _ _ _ _ largest r
             Es Hsort).
    + unfold image_fallback_bounds. cbv zeta. rewrite Hshrunk. exact Er.
    + nra.
Qed.

Lemma selectors_inhabited_witness :
  (exists selected : list TextCropCandidate,
      select_text_crop_candidates 1000 1000 6 28 120 80 28 2 6 320
        [mkLine "Fig. 1" (mkRect 100 100 60 20)] = Ok selected
      /\ selected <> [])
  /\ (exists selected : list Rect,
        select_image_crop_boxes sqrt_scaled 1000 1000 120 (8 # 1000) (72 # 100) 4
          [mkRect 400 400 50 50] = Ok selected
        /\ selected <> []).
Proof.
  split.
  - apply (proj1 selectors_inhabited).
    + repeat split; vm_compute; discriminate.
    + vm_compute. discriminate.
  - eapply (proj2 selectors_inhabited).
    + vm_compute. reflexivity.
    + vm_compute. reflexivity.
    + repeat split; vm_compute; discriminate.
    + vm_compute. discriminate.
    + vm_compute. discriminate.
Defined.

Lemma fallback_cut_at_page_corner :
  (text_page_area 1469 1901 * (2 # 1000) <= 120 * text_fallback_min_height 80
   /\ select_text_crop_candidates 1469 1901 6 28 120 80 28 2 6 320
        [mkLine "Fig. 1" (mkRect 0 0 1 1)] = Ok [])
  /\ (image_page_area 1000 1000 * (8 # 1000) <= 120 * 120
      /\ select_image_crop_boxes sqrt_scaled 1000 1000 120 (8 # 1000)
           (72 # 100) 4 [mkRect 0 0 50 50] = Ok []).
Proof.
  split; (split; [vm_compute; discriminate | vm_compute; reflexivity]).
Qed.
